(** * EHR sequence tokenisation and outcome labelling

    A shallow embedding of the data-processing notebook
    [data_processing_EHR_FM.ipynb]: the outcome labeler
    [calculate_mace_outcomes], the vocabulary builder [create_vocabulary],
    the sequence tokenizer [tokenize_patient_data], the assembler
    [process_patient_data] and the mortality-outcome cell.

    Conventions of the embedding.
    - A pandas DataFrame is the list of its rows, a column the list of the
      field over the rows.  Person ids, concept ids and timestamps are
      integers ([Z]); a timestamp counts whole seconds, the resolution of
      date and date-time strings without a fractional part.
    - A nullable date ([NaT]) is [None]; a float cell holding NaN is [None].
    - Token ids, row indices and lengths are [nat].
    - A Python dict read only through [get] and [[]] is a [gmap]; a dict that
      is iterated is an association list in insertion order ([odict]).
    - An exception ([KeyError], [IndexError]) is [None] in the option monad. *)

From Stdlib Require Import ZArith QArith Lia Ascii.
From stdpp Require Import base option list list_numbers sorting strings pretty gmap.

Local Open Scope nat_scope.
Set Warnings "-clear-no-such-hyp".

(** ** Tables *)

(** The patient-event table: [person_id], [concept_id], [event_date]. *)
Record event := Event {
  person_id : Z;
  concept_id : Z;
  event_date : Z
}.

(** The index-date table: [person_id] and the column named by
    [index_col_name], after [pd.to_datetime]. *)
Record index_row := IndexRow {
  index_person_id : Z;
  index_date : option Z
}.

(** The outcome-event table: [person_id], [first_mace_date]. *)
Record mace_row := MaceRow {
  mace_person_id : Z;
  first_mace_date : option Z
}.

(** The frame returned by the labeler: [person_id], [mace_12m] (int8). *)
Record outcome_row := OutcomeRow {
  outcome_person_id : Z;
  mace_12m : Z
}.

(** The death table: [person_id], [first_exposure_date], [death_date]. *)
Record death_row := DeathRow {
  death_person_id : Z;
  first_exposure_date : option Z;
  death_date : option Z
}.

Global Instance event_eq_dec : EqDecision event.
Proof. solve_decision. Defined.

(** ** numpy and pandas primitives *)

Definition MAX_SEQ_LENGTH : nat := 1024.
Global Arguments MAX_SEQ_LENGTH : simpl never.

(** [astype(np.int32)] on an integer: two's-complement wrap-around. *)
Definition astype_int32 (z : Z) : Z :=
  ((z + 2 ^ 31) `mod` 2 ^ 32 - 2 ^ 31)%Z.

Definition in_int32 (z : Z) : Prop := (- 2 ^ 31 ≤ z < 2 ^ 31)%Z.

(** [np.unique]: the distinct values in ascending order. *)
Fixpoint insert_unique (x : Z) (l : list Z) : list Z :=
  match l with
  | [] => [x]
  | y :: l' =>
      if (x <? y)%Z then x :: l
      else if (x =? y)%Z then l
      else y :: insert_unique x l'
  end.

Definition np_unique (l : list Z) : list Z := foldr insert_unique [] l.

(** Python's [str] on an integer (and numpy's [astype(str)]). *)
Definition str (z : Z) : string := pretty z.

(** A dict built by successive assignments: a later pair overrides an
    earlier one with the same key. *)
Definition dict_of_pairs `{Countable K} {V} (kvs : list (K * V)) : gmap K V :=
  foldl (λ m kv, <[kv.1 := kv.2]> m) ∅ kvs.

(** An insertion-ordered dict that is iterated: assigning to a key that is
    present keeps its position. *)
Definition odict (V : Type) : Type := list (Z * V).

Fixpoint odict_set {V} (k : Z) (v : V) (d : odict V) : odict V :=
  match d with
  | [] => [(k, v)]
  | (k', v') :: d' =>
      if decide (k' = k) then (k, v) :: d' else (k', v') :: odict_set k v d'
  end.

Fixpoint odict_get {V} (k : Z) (d : odict V) : option V :=
  match d with
  | [] => None
  | (k', v') :: d' => if decide (k' = k) then Some v' else odict_get k d'
  end.

Definition odict_of_pairs {V} (kvs : list (Z * V)) : odict V :=
  foldl (λ d kv, odict_set kv.1 kv.2 d) [] kvs.

(** [enumerate]. *)
Definition enumerate {A} (l : list A) : list (nat * A) := zip (seq 0 (length l)) l.

(** The rows of a frame with a given key, in frame order. *)
Definition matches {R} (kr : R → Z) (right : list R) (k : Z) : list R :=
  filter (λ r, kr r = k) right.

(** What a left join makes of one left row: the row once per right row with
    its key, or once with the right columns missing. *)
Definition join_row {L R} (kl : L → Z) (kr : R → Z) (right : list R) (l : L)
    : list (L * option R) :=
  match matches kr right (kl l) with
  | [] => [(l, None)]
  | ms => (λ r, (l, Some r)) <$> ms
  end.

(** [pd.merge(left, right, on='person_id', how='left')]: every left row, in
    the order of the left frame, once per right row with the same key (in the
    order of the right frame), or once with missing right columns. *)
Definition merge_left {L R} (kl : L → Z) (kr : R → Z)
    (left : list L) (right : list R) : list (L * option R) :=
  left ≫= join_row kl kr right.

(** [sort_values(['person_id', 'event_date'])]: a stable sort on the pair. *)
Definition event_le (a b : event) : bool :=
  (person_id a <? person_id b)%Z
  || ((person_id a =? person_id b)%Z && (event_date a <=? event_date b)%Z).

Fixpoint insert_sorted (x : event) (l : list event) : list event :=
  match l with
  | [] => [x]
  | y :: l' => if event_le x y then x :: l else y :: insert_sorted x l'
  end.

Definition sort_values (data : list event) : list event :=
  foldr insert_sorted [] data.

(** [arr[i] = v] on a numpy array: [IndexError] out of range. *)
Definition array_set {A} (i : nat) (v : A) (arr : list A) : option (list A) :=
  if decide (i < length arr) then Some (<[i := v]> arr) else None.

(** [l[-n:]]: the last [n] elements, and the whole list when [n] is [0] or
    not smaller than the length. *)
Definition slice_last {A} (n : nat) (l : list A) : list A :=
  match n with
  | 0 => l
  | _ => drop (length l - n) l
  end.

(** A [for] loop whose body may raise. *)
Fixpoint for_each {S A} (body : S → A → option S) (st : S) (l : list A) : option S :=
  match l with
  | [] => Some st
  | x :: l' => st' ← body st x; for_each body st' l'
  end.

(** ** Outcome labeler *)

(** [Timedelta.days]: whole days, rounded towards minus infinity. *)
Definition days (td : Z) : Z := (td `div` 86400)%Z.

(** One row of [days_to_mace]: [0.0] where [first_mace_date] is missing,
    else [x.days if pd.notna(x) else 0] of the difference. *)
Definition days_to_mace (row : index_row * option mace_row) : Z :=
  match row.2 ≫= first_mace_date with
  | Some mace_date =>
      match index_date row.1 with
      | Some start => days (mace_date - start)
      | None => 0
      end
  | None => 0
  end%Z.

(** [np.logical_and(days_to_mace >= 7, days_to_mace <= 365).astype(np.int8)]. *)
Definition within_window (d : Z) : Z :=
  if ((7 <=? d) && (d <=? 365))%Z then 1%Z else 0%Z.

Definition calculate_mace_outcomes
    (antihypertensive_starts : list index_row) (mace_data : list mace_row)
    : list outcome_row :=
  let outcomes :=
    merge_left index_person_id mace_person_id antihypertensive_starts mace_data in
  (λ row, OutcomeRow (index_person_id row.1) (within_window (days_to_mace row)))
    <$> outcomes.

(** ** Vocabulary builder *)

Definition reserved_tokens : gmap string nat :=
  <["[PAD]" := 0]> (<["[CLS]" := 1]> (<["[SEP]" := 2]> (<["[DAY]" := 3]> ∅))).

Definition unique_codes (df : list event) : list Z :=
  np_unique (astype_int32 <$> (concept_id <$> df)).

Definition create_vocabulary (df : list event) : gmap string nat :=
  let codes := str <$> unique_codes df in
  (* {**a, **b}: the entries of b win *)
  reserved_tokens ∪ dict_of_pairs (imap (λ idx code, (code, idx + 4)) codes).

(** ** Sequence tokenizer *)

Fixpoint tokenize_loop (current_date : option Z) (tokens : list string)
    (pairs : list (Z * Z)) : list string :=
  match pairs with
  | [] => tokens
  | (date, concept) :: rest =>
      if decide (Some date ≠ current_date) then
        let tokens :=
          if current_date is Some _ then tokens ++ ["[SEP]"] else tokens in
        let tokens := tokens ++ ["[DAY]"] in
        tokenize_loop (Some date) (tokens ++ [str concept]) rest
      else
        tokenize_loop current_date (tokens ++ [str concept]) rest
  end.

(** The list [tokens] after the final [append]. *)
Definition build_tokens (events_array dates_array : list Z) : list string :=
  tokenize_loop None ["[CLS]"] (zip dates_array events_array) ++ ["[SEP]"].

(** The list comprehension [vocab.get(token, vocab['[PAD]'])], before the
    slice: [KeyError] when the vocabulary has no padding entry. *)
Definition untruncated_token_ids (events_array dates_array : list Z)
    (vocab : gmap string nat) : option (list nat) :=
  pad ← vocab !! "[PAD]";
  Some ((λ token, default pad (vocab !! token))
          <$> build_tokens events_array dates_array).

(** The id [vocab.get(token, vocab['[PAD]'])] of a token under a vocabulary
    whose padding id is [0], and the id of the token of a concept code. *)
Definition token_id (vocab : gmap string nat) (token : string) : nat :=
  default 0 (vocab !! token).

Definition code_id (vocab : gmap string nat) (concept : Z) : nat :=
  default 0 (vocab !! str concept).

Definition tokenize_patient_data (events_array dates_array : list Z)
    (vocab : gmap string nat) : option (list nat) :=
  slice_last MAX_SEQ_LENGTH <$> untruncated_token_ids events_array dates_array vocab.

(** ** Assembler *)

(** A row of the event table after the left join with the labels; the
    [mace_12m] cell is NaN ([None]) where no label row matched. *)
Definition merged_row : Type := event * option outcome_row.

Definition merged_mace (r : merged_row) : option Z := mace_12m <$> r.2.

(** [data.groupby('person_id')]: the groups in ascending key order, each with
    its rows in frame order. *)
Definition groupby_person_id (data : list merged_row) : list (Z * list merged_row) :=
  (λ name, (name, filter (λ r, person_id r.1 = name) data))
    <$> np_unique ((λ r, person_id r.1) <$> data).

(** [.iloc[0]]: [IndexError] on an empty column. *)
Definition iloc0 {A} (col : list A) : option A := head col.

Definition patient_arrays : Type := list Z * list Z * option Z.

Definition grouped_data_of (data : list merged_row) : option (odict patient_arrays) :=
  odict_of_pairs <$>
    mapM (λ ng : Z * list merged_row,
            mace ← iloc0 (merged_mace <$> ng.2);
            Some (ng.1, ((concept_id ∘ fst) <$> ng.2,
                         (event_date ∘ fst) <$> ng.2,
                         mace)))
         (groupby_person_id data).

(** The arrays filled by the main loop, with the running maximum. *)
Record loop_state := LoopState {
  padded_sequences : list (list nat);
  mace_outcomes : list (option Z);
  sample_ids : list Z;
  max_seq_length : nat
}.

(** [row[:n] = vals], for [vals] of length [n] within the row. *)
Definition assign_prefix (row : list nat) (n : nat) (vals : list nat) : option (list nat) :=
  if decide (length vals = n ∧ n ≤ length row) then Some (vals ++ drop n row) else None.

Definition loop_body (vocab : gmap string nat) (st : loop_state)
    (item : nat * (Z * patient_arrays)) : option loop_state :=
  let '(i, (patient_id, (events, dates, mace))) := item in
  tokens ← tokenize_patient_data events dates vocab;
  let seq_len := length tokens `min` MAX_SEQ_LENGTH in
  row ← padded_sequences st !! i;
  row' ← assign_prefix row seq_len (take seq_len tokens);
  let padded := <[i := row']> (padded_sequences st) in
  let max_len := max_seq_length st `max` length tokens in
  outcomes ← array_set i mace (mace_outcomes st);
  ids ← array_set i patient_id (sample_ids st);
  Some (LoopState padded outcomes ids max_len).

(** What [process_patient_data] saves, returns and prints. *)
Record processed := Processed {
  saved_sequences : list (list nat);
  saved_lengths : list nat;
  saved_mace_outcomes : list (option Z);
  saved_vocab : gmap string nat;
  sample_id_to_index : odict nat;
  reported_max_seq_length : nat
}.

(** Line 98: the left join of the labels onto the event table. *)
Definition merge_outcomes (data : list event) (mace_outcomes_df : list outcome_row)
    : list merged_row :=
  merge_left person_id outcome_person_id data mace_outcomes_df.

(** Lines 87 to 91: the cast of [concept_id] to int32 and the sort. *)
Definition normalize (data : list event) : list event :=
  sort_values ((λ e, Event (person_id e) (astype_int32 (concept_id e)) (event_date e))
                 <$> data).

(** [process_patient_data]; [index_col_name] and [suffix] only name a column
    and the output files. *)
Definition process_patient_data (data : list event)
    (antihypertensive_starts : list index_row) (mace_data : list mace_row)
    : option processed :=
  let mace_outcomes_df := calculate_mace_outcomes antihypertensive_starts mace_data in
  let data := normalize data in
  let vocab := create_vocabulary data in
  let data := merge_outcomes data mace_outcomes_df in
  grouped_data ← grouped_data_of data;
  let n_patients := length grouped_data in
  let init :=
    LoopState (replicate n_patients (replicate MAX_SEQ_LENGTH 0))
              (replicate n_patients (Some 0%Z))
              (replicate n_patients 0%Z)   (* np.empty: every slot is written below *)
              0 in
  st ← for_each (loop_body vocab) init (enumerate grouped_data);
  let mapping :=
    odict_of_pairs (zip (sample_ids st) (seq 0 (length (sample_ids st)))) in
  lengths ← mapM (λ item : Z * patient_arrays,
                    let '(_, (events, dates, _)) := item in
                    tokens ← tokenize_patient_data events dates vocab;
                    Some (length tokens `min` MAX_SEQ_LENGTH))
                 grouped_data;
  Some (Processed (padded_sequences st) lengths (mace_outcomes st) vocab
                  mapping (max_seq_length st)).

(** ** Mortality label aligner *)

(** [days_to_death]: the difference in days as a fraction; NaN when either
    date is missing. *)
Definition days_to_death (r : death_row) : option Q :=
  match death_date r, first_exposure_date r with
  | Some d, Some e => Some (Qmake (d - e) 86400)
  | _, _ => None
  end.

(** [death_12m]: both comparisons are false on NaN. *)
Definition death_12m (r : death_row) : Z :=
  match days_to_death r with
  | Some d => if Qle_bool 0 d && Qle_bool d 365 then 1%Z else 0%Z
  | None => 0%Z
  end.

Definition death_dict (deaths : list death_row) : gmap Z Z :=
  dict_of_pairs (zip (death_person_id <$> deaths) (death_12m <$> deaths)).

Definition death_outcomes_of (deaths : list death_row) (id_mapping : odict nat)
    : option (list Z) :=
  for_each (λ death_outcomes (item : Z * nat),
              array_set item.2 (default 0%Z (death_dict deaths !! item.1)) death_outcomes)
           (replicate (length id_mapping) 0%Z)
           id_mapping.

(** An integer index into an array of [n] entries, as numpy reads it: a
    negative index counts from the end; [IndexError] outside [-n, n). *)
Definition np_index (n : nat) (i : Z) : option nat :=
  if decide (0 ≤ i < Z.of_nat n)%Z then Some (Z.to_nat i)
  else if decide (- Z.of_nat n ≤ i < 0)%Z then Some (Z.to_nat (Z.of_nat n + i))
  else None.

Definition array_set_int {A} (i : Z) (v : A) (arr : list A) : option (list A) :=
  j ← np_index (length arr) i; array_set j v arr.

(** Lines 279 to 284 on a mapping whose indices are any integers;
    [death_outcomes_of] is the case of indices that are not negative. *)
Definition death_outcomes_at (deaths : list death_row) (id_mapping : list (Z * Z))
    : option (list Z) :=
  for_each (λ death_outcomes (item : Z * Z),
              array_set_int item.2 (default 0%Z (death_dict deaths !! item.1))
                death_outcomes)
           (replicate (length id_mapping) 0%Z)
           id_mapping.

(** ** Vocabulary of the statements *)

(** The reserved entries and the entries of the codes, as pairs. *)
Definition reserved_list : list (string * nat) :=
  [("[PAD]", 0); ("[CLS]", 1); ("[SEP]", 2); ("[DAY]", 3)].

Definition code_pairs (df : list event) : list (string * nat) :=
  imap (λ idx code, (code, idx + 4)) (str <$> unique_codes df).

(** Number of occurrences of a value in a list. *)
Definition count `{EqDecision A} (x : A) (l : list A) : nat :=
  length (filter (x =.) l).

(** Number of positions of a date column whose date differs from the one
    before ([prev] is the date before the first position). *)
Fixpoint date_runs (prev : option Z) (dates : list Z) : nat :=
  match dates with
  | [] => 0
  | d :: rest => (if decide (Some d = prev) then 0 else 1) + date_runs (Some d) rest
  end.

(** The ids [1], [2] and [3] of the structural tokens. *)
Definition structural (id : nat) : Prop := id = 1 ∨ id = 2 ∨ id = 3.

Global Instance structural_dec id : Decision (structural id).
Proof. unfold structural. apply _. Defined.

(** The token ids the tokenizer returns under a vocabulary whose padding id
    is [0]. *)
Definition patient_tokens (vocab : gmap string nat) (events dates : list Z) : list nat :=
  slice_last MAX_SEQ_LENGTH (token_id vocab <$> build_tokens events dates).

(** A token list followed by padding ids up to the maximum length. *)
Definition pad_row (tokens : list nat) : list nat :=
  tokens ++ replicate (MAX_SEQ_LENGTH - length tokens) 0.

(** The event table after line 98 of the notebook: cast, sorted and joined
    with the labels; and the rows of one person in it. *)
Definition joined_table (data : list event) (starts : list index_row)
    (mace : list mace_row) : list merged_row :=
  merge_outcomes (normalize data) (calculate_mace_outcomes starts mace).

Definition patient_rows (p : Z) (table : list merged_row) : list merged_row :=
  filter (λ r, person_id r.1 = p) table.

Definition row_codes (rows : list merged_row) : list Z := (concept_id ∘ fst) <$> rows.
Definition row_dates (rows : list merged_row) : list Z := (event_date ∘ fst) <$> rows.

(** The triple kept for a group. *)
Definition group_arrays (ng : Z * list merged_row) : Z * patient_arrays :=
  (ng.1, (row_codes ng.2, row_dates ng.2, default None (head (merged_mace <$> ng.2)))).

Definition item_tokens (vocab : gmap string nat) (item : Z * patient_arrays) : list nat :=
  patient_tokens vocab item.2.1.1 item.2.1.2.

(** The arrays in closed form. *)
Definition assembled (data : list event) (starts : list index_row)
    (mace : list mace_row) : processed :=
  let vocab := create_vocabulary (normalize data) in
  let groups := group_arrays <$> groupby_person_id (joined_table data starts mace) in
  let tokens := item_tokens vocab <$> groups in
  Processed (pad_row <$> tokens) (length <$> tokens) ((λ g, g.2.2) <$> groups)
            vocab (zip (fst <$> groups) (seq 0 (length groups)))
            (max_list (length <$> tokens)).

(** A token-id list with every code id written [k] times in a row, the
    structural ids left as they are. *)
Definition expand_codes (k : nat) (ids : list nat) : list nat :=
  ids ≫= λ id, if decide (structural id) then [id] else replicate k id.

(** The order of [sort_values(['person_id', 'event_date'])]. *)
Definition event_order (a b : event) : Prop := event_le a b = true.

(** ** Cohort cells of the notebook *)

(** [df[~df['person_id'].isin(other['person_id'])]]: the rows whose person
    is not in the other frame, in frame order. *)
Definition exclude_persons {R} (key : R → Z) (df : list R) (other : list Z) : list R :=
  filter (λ r, key r ∉ other) df.

(** The pre-training cells (lines 184 to 185, 243 to 247 and 258): the three
    frames without the persons of the doxorubicin event table [data], then
    [process_patient_data]. *)
Definition process_pretraining (data antihypertensive_data : list event)
    (antihypertensive_starts : list index_row) (mace_data : list mace_row)
    : option processed :=
  let dox := person_id <$> data in
  process_patient_data
    (exclude_persons person_id antihypertensive_data dox)
    (exclude_persons index_person_id antihypertensive_starts dox)
    (exclude_persons mace_person_id mace_data dox).

(** The frame [dox_mace]: [person_id], [first_exposure_date],
    [first_mace_date], both dates after [pd.to_datetime]. *)
Record dox_mace_row := DoxMaceRow {
  dox_person_id : Z;
  dox_first_exposure_date : option Z;
  dox_first_mace_date : option Z
}.

(** [(first_mace_date - first_exposure_date).dt.days]: NaN when a date is
    missing. *)
Definition dox_dt_days (r : dox_mace_row) : option Z :=
  match dox_first_mace_date r, dox_first_exposure_date r with
  | Some m, Some e => Some (days (m - e))
  | _, _ => None
  end.

(** [.between(7, 365, inclusive='both')]: false on NaN. *)
Definition between_7_365 (d : option Z) : bool :=
  match d with
  | Some d => (7 <=? d)%Z && (d <=? 365)%Z
  | None => false
  end.

(** Lines 406 to 408: the frame [samson]. *)
Definition samson (dox_mace : list dox_mace_row) : list dox_mace_row :=
  filter (λ r, between_7_365 (dox_dt_days r) = true) dox_mace.

(** Lines 457 to 465: one entry of [days_to_mace] and the column [label]. *)
Definition dox_days_to_mace (r : dox_mace_row) : Z :=
  match dox_first_mace_date r with
  | Some m =>
      match dox_first_exposure_date r with
      | Some e => days (m - e)
      | None => 0
      end
  | None => 0
  end%Z.

Definition dox_label (dox_mace : list dox_mace_row) : list Z :=
  (λ r, within_window (dox_days_to_mace r)) <$> dox_mace.

(** The rows of one person on one date, in frame order: what a stable sort
    on [person_id] and [event_date] leaves in place. *)
Definition day_rows (p d : Z) (data : list event) : list event :=
  filter (λ e, person_id e = p ∧ event_date e = d) data.

(** The codes of the events of one date, in the order of the arrays, and the
    ids of the day: the day boundary, the ids of these codes, the separator. *)
Definition day_codes (events dates : list Z) (d : Z) : list Z :=
  (filter (λ x, x.1 = d) (zip dates events)).*2.

Definition day_block (vocab : gmap string nat) (events dates : list Z) (d : Z)
    : list nat :=
  3 :: (code_id vocab <$> day_codes events dates d) ++ [2].

(** * Properties *)

(** ** Sorted distinct values *)

Section np_unique_facts.
Implicit Types (x y : Z) (l : list Z).

Lemma insert_unique_elem x y l : y ∈ insert_unique x l ↔ y = x ∨ y ∈ l.
Proof.
  induction l as [|z l IH]; simpl.
  - rewrite list_elem_of_singleton, elem_of_nil. tauto.
  - destruct (Z.ltb_spec x z); [by rewrite elem_of_cons|].
    destruct (Z.eqb_spec x z) as [->|].
    + rewrite elem_of_cons. tauto.
    + rewrite !elem_of_cons, IH. tauto.
Qed.

Lemma insert_unique_sorted x l :
  StronglySorted Z.lt l → StronglySorted Z.lt (insert_unique x l).
Proof.
  induction 1 as [|z l Hl IH Hz]; simpl.
  - repeat constructor.
  - destruct (Z.ltb_spec x z).
    + constructor; [by constructor|].
      constructor; [done|].
      eapply Forall_impl; [exact Hz|]. intros; simpl in *; lia.
    + destruct (Z.eqb_spec x z); [by constructor|].
      constructor; [done|].
      apply Forall_forall. intros y Hy.
      apply insert_unique_elem in Hy as [->|Hy]; [lia|].
      by eapply Forall_forall in Hz.
Qed.

Lemma np_unique_elem y l : y ∈ np_unique l ↔ y ∈ l.
Proof.
  induction l as [|x l IH]; simpl; [done|].
  rewrite insert_unique_elem, elem_of_cons, IH. tauto.
Qed.

Lemma np_unique_sorted l : StronglySorted Z.lt (np_unique l).
Proof.
  induction l; simpl; [constructor|by apply insert_unique_sorted].
Qed.

Lemma sorted_lt_NoDup l : StronglySorted Z.lt l → NoDup l.
Proof.
  induction 1 as [|z l Hl IH Hz]; constructor; [|done].
  intros Hin. eapply Forall_forall in Hz; [|exact Hin]. lia.
Qed.

Lemma np_unique_NoDup l : NoDup (np_unique l).
Proof. apply sorted_lt_NoDup, np_unique_sorted. Qed.

(** The result depends on the set of values only. *)
Lemma np_unique_ext l l' : (∀ x, x ∈ l ↔ x ∈ l') → np_unique l = np_unique l'.
Proof.
  intros Hext.
  apply (StronglySorted_unique_strong Z.lt); try apply np_unique_sorted.
  - intros; lia.
  - apply NoDup_Permutation; try apply np_unique_NoDup.
    intros x. by rewrite !np_unique_elem.
Qed.

Lemma np_unique_length l : length (np_unique l) = length (remove_dups l).
Proof.
  apply Permutation_length, NoDup_Permutation.
  - apply np_unique_NoDup.
  - apply NoDup_remove_dups.
  - intros x. by rewrite np_unique_elem, elem_of_remove_dups.
Qed.

Lemma np_unique_lookup_lt l i j x y :
  np_unique l !! i = Some x → np_unique l !! j = Some y → i < j → (x < y)%Z.
Proof.
  intros Hi Hj Hij.
  pose proof (np_unique_sorted l) as Hs.
  apply (StronglySorted_app_1_elem_of Z.lt (take j (np_unique l)) (drop j (np_unique l))).
  - by rewrite take_drop.
  - apply list_elem_of_lookup. exists i.
    by rewrite lookup_take_lt.
  - apply list_elem_of_lookup. exists 0. by rewrite lookup_drop, Nat.add_0_r.
Qed.
End np_unique_facts.

Lemma astype_int32_id z : in_int32 z → astype_int32 z = z.
Proof.
  unfold in_int32, astype_int32. intros ?.
  rewrite Z.mod_small; lia.
Qed.

Lemma astype_int32_range z : in_int32 (astype_int32 z).
Proof.
  unfold in_int32, astype_int32.
  pose proof (Z.mod_pos_bound (z + 2 ^ 31) (2 ^ 32)). lia.
Qed.

Lemma astype_int32_idemp z : astype_int32 (astype_int32 z) = astype_int32 z.
Proof. apply astype_int32_id, astype_int32_range. Qed.

(** ** Decimal strings *)

Global Instance str_inj : Inj (=) (=) str.
Proof. unfold str. apply _. Qed.

Lemma pretty_N_go_not_bracket x s s' :
  s ≠ String "["%char s' → pretty_N_go x s ≠ String "["%char s'.
Proof.
  revert s. induction (N.lt_wf_0 x) as [x _ IH]; intros s Hs.
  destruct (decide (x = 0)%N) as [->|Hx].
  - by rewrite pretty_N_go_0.
  - rewrite pretty_N_go_step by lia. apply IH.
    + apply N.div_lt; lia.
    + unfold pretty_N_char. by repeat case_match.
Qed.

(** A decimal string never starts with an opening bracket, so it is none of
    the reserved tokens. *)
Lemma str_not_bracket z s : str z ≠ String "["%char s.
Proof.
  unfold str, pretty, pretty_Z.
  destruct z as [|p|p]; [done| |done].
  unfold pretty, pretty_positive, pretty, pretty_N.
  case_decide; [done|]. by apply pretty_N_go_not_bracket.
Qed.

(** ** Dicts built from pairs *)

Section dict_of_pairs_facts.
Context `{Countable K} {V : Type}.
Implicit Types (kvs : list (K * V)) (m : gmap K V).

Let assign m (kv : K * V) := <[kv.1 := kv.2]> m.

Lemma foldl_assign_fresh kvs m k :
  k ∉ kvs.*1 → foldl assign m kvs !! k = m !! k.
Proof.
  revert m. induction kvs as [|[k' v'] kvs IH]; intros m Hk; simpl; [done|].
  rewrite fmap_cons, not_elem_of_cons in Hk. destruct Hk as [Hne Hk].
  rewrite IH by done. unfold assign. simpl in *. by rewrite lookup_insert_ne.
Qed.

Lemma foldl_assign_elem kvs m k v :
  NoDup kvs.*1 → (k, v) ∈ kvs → foldl assign m kvs !! k = Some v.
Proof.
  revert m. induction kvs as [|[k' v'] kvs IH]; intros m Hnd Hin; simpl.
  { by apply elem_of_nil in Hin. }
  rewrite fmap_cons in Hnd. apply NoDup_cons in Hnd as [Hk' Hnd].
  apply elem_of_cons in Hin as [[= <- <-]|Hin].
  - rewrite foldl_assign_fresh by done. unfold assign. apply lookup_insert_eq.
  - by apply IH.
Qed.

Lemma dict_of_pairs_lookup kvs k v :
  NoDup kvs.*1 → dict_of_pairs kvs !! k = Some v ↔ (k, v) ∈ kvs.
Proof.
  intros Hnd. unfold dict_of_pairs. split.
  - intros Hlook. destruct (decide (k ∈ kvs.*1)) as [Hin|Hout].
    + apply list_elem_of_fmap in Hin as [[k' v'] [-> Hin]]. simpl in *.
      by rewrite (foldl_assign_elem _ _ _ _ Hnd Hin) in Hlook; simplify_eq.
    + by rewrite (foldl_assign_fresh _ _ _ Hout), lookup_empty in Hlook.
  - by apply foldl_assign_elem.
Qed.

Lemma dict_of_pairs_lookup_None kvs k :
  k ∉ kvs.*1 → dict_of_pairs kvs !! k = None.
Proof.
  intros Hout. unfold dict_of_pairs.
  by rewrite (foldl_assign_fresh _ _ _ Hout), lookup_empty.
Qed.

(** Whatever the keys, the last pair of a key is the one that stays. *)
Lemma dict_of_pairs_snoc kvs k v :
  dict_of_pairs (kvs ++ [(k, v)]) = <[k := v]> (dict_of_pairs kvs).
Proof. unfold dict_of_pairs. by rewrite foldl_app. Qed.
End dict_of_pairs_facts.

(** ** The vocabulary *)

Lemma reserved_tokens_lookup key id :
  reserved_tokens !! key = Some id ↔ (key, id) ∈ reserved_list.
Proof.
  unfold reserved_tokens, reserved_list.
  rewrite !elem_of_cons, elem_of_nil.
  repeat (rewrite lookup_insert; case_decide; subst);
    rewrite ?lookup_empty; naive_solver.
Qed.

Lemma reserved_tokens_str z : reserved_tokens !! str z = None.
Proof.
  destruct (reserved_tokens !! str z) as [id|] eqn:E; [|done].
  apply reserved_tokens_lookup in E. unfold reserved_list in E.
  rewrite !elem_of_cons, elem_of_nil in E.
  destruct E as [E|[E|[E|[E|[]]]]]; injection E as E _;
    by apply str_not_bracket in E.
Qed.

Lemma code_pairs_keys df : (code_pairs df).*1 = str <$> unique_codes df.
Proof.
  unfold code_pairs. apply list_eq. intros i.
  rewrite list_lookup_fmap, list_lookup_imap.
  by destruct ((str <$> unique_codes df) !! i).
Qed.

Lemma code_pairs_NoDup df : NoDup (code_pairs df).*1.
Proof.
  rewrite code_pairs_keys. apply (NoDup_fmap_2 str), np_unique_NoDup.
Qed.

Lemma code_pairs_elem df key id :
  (key, id) ∈ code_pairs df ↔
  ∃ j c, unique_codes df !! j = Some c ∧ key = str c ∧ id = j + 4.
Proof.
  unfold code_pairs. rewrite elem_of_lookup_imap. split.
  - intros (j & s & [= -> ->] & Hs).
    rewrite list_lookup_fmap in Hs.
    destruct (unique_codes df !! j) as [c|] eqn:E; simplify_eq/=. eauto.
  - intros (j & c & Hc & -> & ->). exists j, (str c). split; [done|].
    by rewrite list_lookup_fmap, Hc.
Qed.

Lemma create_vocabulary_lookup df key id :
  create_vocabulary df !! key = Some id ↔
  (key, id) ∈ reserved_list ∨
  ∃ j c, unique_codes df !! j = Some c ∧ key = str c ∧ id = j + 4.
Proof.
  unfold create_vocabulary. fold (code_pairs df).
  rewrite lookup_union_Some_raw, reserved_tokens_lookup.
  rewrite (dict_of_pairs_lookup _ _ _ (code_pairs_NoDup df)), code_pairs_elem.
  split; [naive_solver|].
  intros [?|(j & c & ? & -> & ->)]; [by left|right].
  split; [apply reserved_tokens_str|eauto].
Qed.

Lemma create_vocabulary_pad df : create_vocabulary df !! "[PAD]" = Some 0.
Proof. apply create_vocabulary_lookup. left. unfold reserved_list. set_solver. Qed.

Lemma create_vocabulary_reserved df key id :
  (key, id) ∈ reserved_list → create_vocabulary df !! key = Some id.
Proof. intros. apply create_vocabulary_lookup. by left. Qed.

(** The id of a code: its rank among the distinct codes plus four, and no
    entry when the code is not in the table. *)
Lemma create_vocabulary_code df j c :
  unique_codes df !! j = Some c → create_vocabulary df !! str c = Some (j + 4).
Proof. intros. apply create_vocabulary_lookup. right. eauto. Qed.

Lemma create_vocabulary_code_ge df c id :
  create_vocabulary df !! str c = Some id → 4 ≤ id.
Proof.
  intros [Hres|(j & c' & _ & _ & ->)]%create_vocabulary_lookup; [|lia].
  apply reserved_tokens_lookup in Hres. by rewrite reserved_tokens_str in Hres.
Qed.

Lemma create_vocabulary_size df :
  size (create_vocabulary df) = 4 + length (unique_codes df).
Proof.
  unfold create_vocabulary. fold (code_pairs df).
  rewrite map_size_disj_union.
  - f_equal. rewrite <-(length_fmap str), <-code_pairs_keys, length_fmap.
    rewrite <-(length_map_to_list (M:=gmap string)).
    apply Permutation_length, NoDup_Permutation.
    + apply NoDup_map_to_list.
    + eapply NoDup_fmap_1, code_pairs_NoDup.
    + intros [k v]. rewrite elem_of_map_to_list.
      apply dict_of_pairs_lookup, code_pairs_NoDup.
  - apply map_disjoint_spec. intros k x y Hx Hy.
    apply (dict_of_pairs_lookup _ _ _ (code_pairs_NoDup df)) in Hy.
    apply code_pairs_elem in Hy as (j & c & _ & -> & _).
    by rewrite reserved_tokens_str in Hx.
Qed.

Lemma create_vocabulary_code_inv df c id :
  create_vocabulary df !! str c = Some id →
  ∃ j, unique_codes df !! j = Some c ∧ id = j + 4.
Proof.
  intros [Hres|(j & c' & Hj & Heq & ->)]%create_vocabulary_lookup.
  - apply reserved_tokens_lookup in Hres. by rewrite reserved_tokens_str in Hres.
  - apply (inj str) in Heq as ->. eauto.
Qed.

Lemma create_vocabulary_monotone df c1 c2 id1 id2 :
  create_vocabulary df !! str c1 = Some id1 →
  create_vocabulary df !! str c2 = Some id2 →
  (c1 < c2)%Z ↔ id1 < id2.
Proof.
  intros (j1 & H1 & ->)%create_vocabulary_code_inv
         (j2 & H2 & ->)%create_vocabulary_code_inv.
  unfold unique_codes in *.
  destruct (lt_eq_lt_dec j1 j2) as [[Hlt| ->]|Hgt].
  - pose proof (np_unique_lookup_lt _ _ _ _ _ H1 H2 Hlt). lia.
  - simplify_eq. lia.
  - pose proof (np_unique_lookup_lt _ _ _ _ _ H2 H1 Hgt). lia.
Qed.

Lemma create_vocabulary_ext df df' :
  (∀ c, c ∈ concept_id <$> df ↔ c ∈ concept_id <$> df') →
  create_vocabulary df' = create_vocabulary df.
Proof.
  intros Hext. unfold create_vocabulary, unique_codes.
  do 4 f_equal. apply np_unique_ext. intros x.
  rewrite !list_elem_of_fmap. by setoid_rewrite Hext.
Qed.

Lemma create_vocabulary_empty : create_vocabulary [] = reserved_tokens.
Proof.
  unfold create_vocabulary, unique_codes, dict_of_pairs. simpl.
  apply (right_id_L ∅ (∪)).
Qed.

Lemma unique_codes_in_range df :
  Forall in_int32 (concept_id <$> df) →
  unique_codes df = np_unique (concept_id <$> df).
Proof.
  intros Hr. unfold unique_codes. f_equal.
  rewrite <-(list_fmap_id (concept_id <$> df)) at 2.
  apply Forall_fmap_ext_1. eapply Forall_impl; [exact Hr|].
  intros z Hz. by apply astype_int32_id.
Qed.

(** C5, as amended.  The vocabulary built from any event table holds the
    four reserved entries 0 (padding), 1 (sequence start), 2 (separator) and 3
    (day boundary); its other entries are the decimal strings of the [k]
    distinct concept codes after the cast to 32-bit integers, with ids exactly
    [4 .. 3+k], in ascending order of the codes; [k] is the number of distinct
    concept codes of the table when every code fits in 32 bits; a table with
    the same codes gives the same vocabulary, and the empty table gives the
    four reserved entries only. *)
Theorem create_vocabulary_spec (df : list event) :
  let vocab := create_vocabulary df in
  let codes := unique_codes df in
  let k := length codes in
  (vocab !! "[PAD]" = Some 0 ∧ vocab !! "[CLS]" = Some 1 ∧
   vocab !! "[SEP]" = Some 2 ∧ vocab !! "[DAY]" = Some 3) ∧
  size vocab = 4 + k ∧
  (∀ c, c ∈ codes ↔ c ∈ astype_int32 <$> (concept_id <$> df)) ∧
  NoDup codes ∧
  (Forall in_int32 (concept_id <$> df) →
     k = length (remove_dups (concept_id <$> df))) ∧
  (∀ key id, vocab !! key = Some id →
     (key, id) ∈ reserved_list ∨
     (∃ c, c ∈ codes ∧ key = str c ∧ 4 ≤ id ≤ 3 + k)) ∧
  (∀ id, 4 ≤ id ≤ 3 + k → ∃ c, c ∈ codes ∧ vocab !! str c = Some id) ∧
  (∀ c1 c2 id1 id2, vocab !! str c1 = Some id1 → vocab !! str c2 = Some id2 →
     (c1 < c2)%Z ↔ id1 < id2) ∧
  (∀ df', (∀ c, c ∈ concept_id <$> df ↔ c ∈ concept_id <$> df') →
     create_vocabulary df' = vocab) ∧
  create_vocabulary [] = reserved_tokens.
Proof.
  intros vocab codes k. subst vocab codes k.
  split; [|split; [|split; [|split; [|split; [|split; [|split; [|split; [|split]]]]]]]].
  - repeat split; apply create_vocabulary_reserved; unfold reserved_list;
      rewrite !elem_of_cons; tauto.
  - apply create_vocabulary_size.
  - intros c. apply np_unique_elem.
  - apply np_unique_NoDup.
  - intros Hr. rewrite (unique_codes_in_range _ Hr). apply np_unique_length.
  - intros key id [?|(j & c & Hj & -> & ->)]%create_vocabulary_lookup; [by left|].
    right. exists c. split; [by eapply list_elem_of_lookup_2|].
    split; [done|]. apply lookup_lt_Some in Hj. lia.
  - intros id Hid.
    destruct (lookup_lt_is_Some_2 (unique_codes df) (id - 4)) as [c Hc]; [lia|].
    exists c. split; [by eapply list_elem_of_lookup_2|].
    replace id with ((id - 4) + 4) at 1 by lia.
    by apply create_vocabulary_code.
  - apply create_vocabulary_monotone.
  - apply create_vocabulary_ext.
  - apply create_vocabulary_empty.
Qed.

(** C5 as the specification states it fails for codes that do not fit in 32
    bits: the codes 7 and 2^32 + 7 are two distinct codes of the table, the
    cast makes them one, and the vocabulary has one entry beside the reserved
    ones: the id 4 and no id 5. *)
Lemma create_vocabulary_wrapped_codes :
  length (remove_dups (concept_id <$> [Event 1 7 0; Event 1 4294967303 0])) = 2 ∧
  size (create_vocabulary [Event 1 7 0; Event 1 4294967303 0]) = 5 ∧
  create_vocabulary [Event 1 7 0; Event 1 4294967303 0] !! str 7 = Some 4 ∧
  ¬ ∃ key, create_vocabulary [Event 1 7 0; Event 1 4294967303 0] !! key = Some 5.
Proof.
  assert (unique_codes [Event 1 7 0; Event 1 4294967303 0] = [7%Z]) as Hcodes
    by (vm_compute; reflexivity).
  split; [by vm_compute|].
  split; [by rewrite create_vocabulary_size, Hcodes|].
  split; [apply (create_vocabulary_code _ 0); by rewrite Hcodes|].
  intros [key [Hres|(j & c & Hj & _ & Heq)]%create_vocabulary_lookup].
  - unfold reserved_list in Hres. rewrite !elem_of_cons, elem_of_nil in Hres.
    naive_solver.
  - assert (j = 1) as -> by lia. by rewrite Hcodes in Hj.
Qed.

(** ** The tokenizer *)

Section count_facts.
Context `{EqDecision A}.
Implicit Types (x y : A) (l : list A).

Lemma count_nil x : count x [] = 0.
Proof. done. Qed.

Lemma count_app x l1 l2 : count x (l1 ++ l2) = count x l1 + count x l2.
Proof. unfold count. by rewrite filter_app, length_app. Qed.

Lemma count_cons_eq x l : count x (x :: l) = S (count x l).
Proof. unfold count. by rewrite filter_cons_True. Qed.

Lemma count_cons_ne x y l : x ≠ y → count x (y :: l) = count x l.
Proof. intros. unfold count. by rewrite filter_cons_False. Qed.
End count_facts.

Lemma tokenize_loop_acc current_date tokens pairs :
  tokenize_loop current_date tokens pairs
  = tokens ++ tokenize_loop current_date [] pairs.
Proof.
  revert current_date tokens.
  induction pairs as [|[date concept] rest IH]; intros cur tokens; simpl.
  - by rewrite app_nil_r.
  - case_decide; destruct cur; simpl;
      rewrite (IH _ (_ ++ _)), (IH _ (_ :: _)); by rewrite <-?app_assoc.
Qed.

(** One iteration of the loop, on the tokens it appends. *)
Lemma tokenize_loop_cons current_date date concept rest :
  tokenize_loop current_date [] ((date, concept) :: rest)
  = (if decide (Some date = current_date) then []
     else (if current_date is Some _ then ["[SEP]"] else []) ++ ["[DAY]"])
    ++ str concept :: tokenize_loop (Some date) [] rest.
Proof.
  simpl. destruct (decide (Some date = current_date)) as [Heq|Hne].
  - rewrite decide_False by (by intros ?).
    rewrite tokenize_loop_acc. by rewrite <-Heq.
  - rewrite decide_True by done. rewrite tokenize_loop_acc.
    destruct current_date; simpl; by rewrite <-?app_assoc.
Qed.

Lemma build_tokens_eq events dates :
  build_tokens events dates
  = "[CLS]" :: tokenize_loop None [] (zip dates events) ++ ["[SEP]"].
Proof. unfold build_tokens. by rewrite tokenize_loop_acc. Qed.

Section token_ids.
Variable df : list event.
Local Abbreviation vocab := (create_vocabulary df).

Lemma token_id_cls : token_id vocab "[CLS]" = 1.
Proof.
  unfold token_id.
  rewrite (create_vocabulary_reserved df "[CLS]" 1); [done|].
  unfold reserved_list. rewrite !elem_of_cons. tauto.
Qed.

Lemma token_id_sep : token_id vocab "[SEP]" = 2.
Proof.
  unfold token_id.
  rewrite (create_vocabulary_reserved df "[SEP]" 2); [done|].
  unfold reserved_list. rewrite !elem_of_cons. tauto.
Qed.

Lemma token_id_day : token_id vocab "[DAY]" = 3.
Proof.
  unfold token_id.
  rewrite (create_vocabulary_reserved df "[DAY]" 3); [done|].
  unfold reserved_list. rewrite !elem_of_cons. tauto.
Qed.

Lemma token_id_code c : token_id vocab (str c) = code_id vocab c.
Proof. done. Qed.

(** A code token is the padding id or an id from four on. *)
Lemma code_id_not_structural c : ¬ structural (code_id vocab c).
Proof.
  unfold code_id, structural.
  destruct (create_vocabulary df !! str c) as [id|] eqn:E; simpl; [|lia].
  apply create_vocabulary_code_ge in E. lia.
Qed.

Lemma untruncated_token_ids_eq events dates :
  untruncated_token_ids events dates vocab
  = Some (1 :: (token_id vocab <$> tokenize_loop None [] (zip dates events)) ++ [2]).
Proof.
  unfold untruncated_token_ids.
  rewrite create_vocabulary_pad, build_tokens_eq. cbn [mbind option_bind].
  change (λ token, default 0 (vocab !! token)) with (token_id vocab).
  rewrite fmap_cons, fmap_app, token_id_cls. cbn [fmap list_fmap].
  by rewrite token_id_sep.
Qed.

(** The ids appended by the loop: per date change a separator (unless it
    is the first day) and a day boundary, then the code. *)
Lemma loop_ids_cons prev date concept rest :
  token_id vocab <$> tokenize_loop prev [] ((date, concept) :: rest)
  = (if decide (Some date = prev) then []
     else (if prev is Some _ then [2] else []) ++ [3])
    ++ code_id vocab concept :: (token_id vocab <$> tokenize_loop (Some date) [] rest).
Proof.
  rewrite tokenize_loop_cons, fmap_app, fmap_cons, token_id_code.
  f_equal. case_decide; [done|].
  rewrite fmap_app. simpl. rewrite token_id_day.
  destruct prev; simpl; by rewrite ?token_id_sep.
Qed.

Lemma loop_ids_day prev pairs :
  count 3 (token_id vocab <$> tokenize_loop prev [] pairs) = date_runs prev pairs.*1.
Proof.
  revert prev. induction pairs as [|[date concept] rest IH]; intros prev; [done|].
  rewrite loop_ids_cons, count_app, fmap_cons. simpl.
  pose proof (code_id_not_structural concept) as Hc. unfold structural in Hc.
  rewrite count_cons_ne by lia. rewrite IH.
  case_decide; [done|].
  destruct prev; by rewrite ?count_app, ?count_cons_eq, ?count_cons_ne by lia.
Qed.

Lemma loop_ids_sep prev pairs :
  count 2 (token_id vocab <$> tokenize_loop (Some prev) [] pairs)
  = date_runs (Some prev) pairs.*1.
Proof.
  revert prev. induction pairs as [|[date concept] rest IH]; intros prev; [done|].
  rewrite loop_ids_cons, count_app, fmap_cons. simpl.
  pose proof (code_id_not_structural concept) as Hc. unfold structural in Hc.
  rewrite count_cons_ne by lia. rewrite IH.
  case_decide; [done|].
  by rewrite ?count_app, ?count_cons_eq, ?count_cons_ne by lia.
Qed.

Lemma loop_ids_sep_first pairs :
  count 2 (token_id vocab <$> tokenize_loop None [] pairs)
  = date_runs None pairs.*1 - 1.
Proof.
  destruct pairs as [|[date concept] rest]; [done|].
  rewrite loop_ids_cons, count_app, fmap_cons. simpl.
  pose proof (code_id_not_structural concept) as Hc. unfold structural in Hc.
  rewrite !count_cons_ne by lia. rewrite loop_ids_sep.
  simpl. lia.
Qed.

Lemma loop_ids_codes prev pairs :
  filter (λ id, ¬ structural id) (token_id vocab <$> tokenize_loop prev [] pairs)
  = code_id vocab <$> pairs.*2.
Proof.
  revert prev. induction pairs as [|[date concept] rest IH]; intros prev; [done|].
  rewrite loop_ids_cons, filter_app, fmap_cons. simpl.
  rewrite filter_cons_True by apply code_id_not_structural.
  rewrite IH.
  case_decide; [done|].
  destruct prev; simpl; rewrite ?filter_cons_False, ?filter_nil;
    unfold structural; auto.
Qed.
End token_ids.

(** On a column sorted ascending, equal dates are adjacent: the number of
    date changes is the number of distinct dates. *)
Lemma date_runs_sorted_cons d dates :
  StronglySorted Z.le (d :: dates) →
  S (date_runs (Some d) dates) = length (remove_dups (d :: dates)).
Proof.
  revert d. induction dates as [|d1 rest IH]; intros d Hs; [done|].
  apply StronglySorted_inv in Hs as [Hs Hd].
  specialize (IH d1 Hs).
  cbn [date_runs].
  change (remove_dups (d :: d1 :: rest))
    with (if decide_rel (∈) d (d1 :: rest) then remove_dups (d1 :: rest)
          else d :: remove_dups (d1 :: rest)).
  destruct (decide_rel (∈) d (d1 :: rest)) as [Hin|Hnin];
    destruct (decide (Some d1 = Some d)) as [Heq|Hne]; simplify_eq.
  - lia.
  - apply elem_of_cons in Hin as [->|Hin]; [done|].
    apply Forall_cons in Hd as [Hd1 _].
    apply StronglySorted_inv in Hs as [_ Hrest].
    eapply Forall_forall in Hrest; [|exact Hin].
    destruct Hne. f_equal. lia.
  - destruct Hnin. by left.
  - simpl in *. lia.
Qed.

Lemma date_runs_sorted dates :
  Sorted Z.le dates → date_runs None dates = length (remove_dups dates).
Proof.
  intros Hs%(Sorted_StronglySorted Z.le).
  destruct dates as [|d rest]; [done|].
  rewrite <-date_runs_sorted_cons by done.
  cbn [date_runs]. by rewrite decide_False.
Qed.

(** ** Truncation *)

Lemma MAX_SEQ_LENGTH_pos : 0 < MAX_SEQ_LENGTH.
Proof. unfold MAX_SEQ_LENGTH. lia. Qed.

Section slice_last_facts.
Context {A : Type}.
Implicit Types (l : list A) (n : nat).

Lemma slice_last_short n l : length l ≤ n → slice_last n l = l.
Proof.
  intros Hle. destruct n as [|n]; [done|]. unfold slice_last.
  by replace (length l - S n) with 0 by lia.
Qed.

Lemma slice_last_long n l :
  0 < n → n < length l → slice_last n l = drop (length l - n) l.
Proof. intros Hn _. by destruct n; [lia|]. Qed.

Lemma slice_last_length n l :
  0 < n → length (slice_last n l) = length l `min` n.
Proof.
  intros Hn. destruct n as [|n]; [lia|]. unfold slice_last.
  rewrite length_drop. lia.
Qed.

Lemma slice_last_suffix n l : ∃ dropped, l = dropped ++ slice_last n l.
Proof.
  destruct n as [|n]; [by exists []|].
  exists (take (length l - S n) l). unfold slice_last. by rewrite take_drop.
Qed.
End slice_last_facts.

Lemma tokenize_patient_data_length events dates vocab tokens :
  tokenize_patient_data events dates vocab = Some tokens →
  length tokens ≤ MAX_SEQ_LENGTH.
Proof.
  unfold tokenize_patient_data. intros (full & _ & ->)%fmap_Some.
  rewrite slice_last_length by apply MAX_SEQ_LENGTH_pos. lia.
Qed.

(** C4. When the untruncated id list is longer than the maximum sequence
    length, the tokenizer returns exactly its last [MAX_SEQ_LENGTH] elements;
    otherwise it returns the whole list; the result is never longer than the
    maximum.  (The tokenizer raises exactly when the list comprehension does,
    which it never does under a vocabulary of [create_vocabulary].) *)
Theorem tokenize_truncation (events dates : list Z) (vocab : gmap string nat) :
  match untruncated_token_ids events dates vocab with
  | Some full =>
      ∃ out,
        tokenize_patient_data events dates vocab = Some out ∧
        (MAX_SEQ_LENGTH < length full →
           out = drop (length full - MAX_SEQ_LENGTH) full ∧
           length out = MAX_SEQ_LENGTH ∧
           ∃ dropped, full = dropped ++ out) ∧
        (length full ≤ MAX_SEQ_LENGTH → out = full) ∧
        length out ≤ MAX_SEQ_LENGTH
  | None => tokenize_patient_data events dates vocab = None
  end ∧
  ∀ df, is_Some (untruncated_token_ids events dates (create_vocabulary df)).
Proof.
  split; [|by intros df; rewrite untruncated_token_ids_eq].
  destruct (untruncated_token_ids events dates vocab) as [full|] eqn:Hfull;
    [|unfold tokenize_patient_data; by rewrite Hfull].
  exists (slice_last MAX_SEQ_LENGTH full).
  pose proof MAX_SEQ_LENGTH_pos as Hpos.
  split; [|split; [|split]].
  - unfold tokenize_patient_data. by rewrite Hfull.
  - intros Hlong. split; [by apply slice_last_long|].
    split; [rewrite slice_last_length by done; lia|].
    apply slice_last_suffix.
  - apply slice_last_short.
  - rewrite slice_last_length by done. lia.
Qed.

Lemma tokenize_truncation_witness :
  let events := replicate 1100 7%Z in
  let dates := replicate 1100 0%Z in
  let vocab := create_vocabulary [Event 1 7 0] in
  ∃ full out,
    untruncated_token_ids events dates vocab = Some full ∧
    length full = 1103 ∧
    tokenize_patient_data events dates vocab = Some out ∧
    out = drop 79 full ∧ length out = 1024.
Proof.
  intros events dates vocab.
  assert (∃ full, untruncated_token_ids events dates vocab = Some full
                  ∧ length full = 1103) as (full & Hfull & Hlen).
  { eexists. split; [vm_compute; reflexivity|]. vm_compute. reflexivity. }
  destruct (tokenize_truncation events dates vocab) as [Htrunc _].
  rewrite Hfull in Htrunc. destruct Htrunc as (out & Hout & Hlong & _ & _).
  exists full, out. split; [exact Hfull|]. split; [exact Hlen|].
  split; [exact Hout|].
  destruct Hlong as (Hdrop & Hlen' & _).
  - rewrite Hlen. unfold MAX_SEQ_LENGTH. lia.
  - split; [|exact Hlen'].
    rewrite Hdrop, Hlen. reflexivity.
Defined.

(** ** Left joins *)

Section filter_facts.
Context {A : Type} (P : A → Prop) `{∀ x, Decision (P x)}.

Lemma filter_none (l : list A) : Forall (λ x, ¬ P x) l → filter P l = [].
Proof.
  induction 1 as [|x l Hx Hl IH]; [done|]. by rewrite filter_cons_False.
Qed.

Lemma filter_all (l : list A) : Forall P l → filter P l = l.
Proof.
  induction 1 as [|x l Hx Hl IH]; [done|].
  rewrite filter_cons_True by done. by f_equal.
Qed.
End filter_facts.

Section merge_left_facts.
Context {L R : Type} (kl : L → Z) (kr : R → Z).
Implicit Types (left : list L) (right : list R).

Lemma merge_left_eq left right :
  merge_left kl kr left right = left ≫= join_row kl kr right.
Proof. done. Qed.

Lemma join_row_length right l :
  length (join_row kl kr right l) = length (matches kr right (kl l)) `max` 1.
Proof.
  unfold join_row. destruct (matches kr right (kl l)) as [|r ms] eqn:E; [done|].
  rewrite length_fmap. simpl. lia.
Qed.

Lemma join_row_fst right l x : x ∈ join_row kl kr right l → x.1 = l.
Proof.
  unfold join_row. destruct (matches kr right (kl l)) as [|r ms].
  - by intros ->%list_elem_of_singleton.
  - by intros (r' & -> & _)%list_elem_of_fmap.
Qed.

Lemma join_row_nonempty right l : join_row kl kr right l ≠ [].
Proof. unfold join_row. by destruct (matches kr right (kl l)). Qed.

(** A key that is unique on the right matches at most one row. *)
Lemma matches_unique right k :
  NoDup (kr <$> right) → length (matches kr right k) ≤ 1.
Proof.
  unfold matches. induction right as [|r right IH]; intros Hnd; simpl; [lia|].
  rewrite fmap_cons in Hnd. apply NoDup_cons in Hnd as [Hr Hnd].
  rewrite filter_cons. case_decide as Hk; [|by apply IH].
  simpl. rewrite filter_none; [done|].
  apply Forall_forall. intros r' Hr' Hk'.
  apply Hr. rewrite <-Hk' in Hk. rewrite Hk.
  by apply list_elem_of_fmap_2.
Qed.

Lemma matches_unique_elem right k r :
  NoDup (kr <$> right) → r ∈ right → kr r = k → matches kr right k = [r].
Proof.
  intros Hnd Hr Hk. pose proof (matches_unique right k Hnd) as Hlen.
  assert (r ∈ matches kr right k) as Hin by (by apply list_elem_of_filter).
  destruct (matches kr right k) as [|r1 [|r2 ms]]; simpl in *; [|..|lia].
  - by apply elem_of_nil in Hin.
  - by apply list_elem_of_singleton in Hin as ->.
Qed.

Lemma merge_left_unique left right :
  NoDup (kr <$> right) →
  merge_left kl kr left right
  = (λ l, (l, head (matches kr right (kl l)))) <$> left.
Proof.
  intros Hnd. rewrite merge_left_eq.
  induction left as [|l left IH]; [done|].
  rewrite bind_cons, fmap_cons, IH. f_equal.
  unfold join_row. pose proof (matches_unique right (kl l) Hnd).
  destruct (matches kr right (kl l)) as [|r1 [|r2 ms]]; simpl in *; [done..|lia].
Qed.

Lemma merge_left_length left right :
  length (merge_left kl kr left right)
  = sum_list ((λ l, length (matches kr right (kl l)) `max` 1) <$> left).
Proof.
  rewrite merge_left_eq. induction left as [|l left IH]; [done|].
  rewrite bind_cons, length_app, fmap_cons, IH, join_row_length. done.
Qed.

(** Selecting the rows of one key commutes with the join. *)
Lemma merge_left_filter left right (k : Z) :
  filter (λ x, kl x.1 = k) (merge_left kl kr left right)
  = merge_left kl kr (filter (λ l, kl l = k) left) right.
Proof.
  rewrite !merge_left_eq. induction left as [|l left IH]; [done|].
  rewrite bind_cons, filter_app, IH, filter_cons.
  case_decide as Hk.
  - rewrite bind_cons. f_equal.
    apply filter_all, Forall_forall. intros x Hx. simpl.
    by rewrite (join_row_fst _ _ _ Hx).
  - rewrite filter_none; [done|].
    apply Forall_forall. intros x Hx. simpl.
    by rewrite (join_row_fst _ _ _ Hx).
Qed.

(** The join of rows that share a key: every row once per match. *)
Lemma merge_left_same_key left right (k : Z) :
  Forall (λ l, kl l = k) left →
  merge_left kl kr left right
  = match matches kr right k with
    | [] => (λ l, (l, None)) <$> left
    | ms => left ≫= λ l, (λ r, (l, Some r)) <$> ms
    end.
Proof.
  rewrite merge_left_eq. induction 1 as [|l left Hl Hleft IH].
  { by destruct (matches kr right k). }
  rewrite bind_cons, IH. unfold join_row. rewrite Hl.
  by destruct (matches kr right k).
Qed.

Lemma merge_left_keys left right :
  ∀ k, k ∈ (kl ∘ fst) <$> merge_left kl kr left right ↔ k ∈ kl <$> left.
Proof.
  intros k. rewrite merge_left_eq, !list_elem_of_fmap. split.
  - intros (x & -> & Hx). apply list_elem_of_bind in Hx as (l & Hx & Hl).
    exists l. split; [|done]. simpl. by rewrite (join_row_fst _ _ _ Hx).
  - intros (l & -> & Hl).
    destruct (join_row kl kr right l) as [|x xs] eqn:E.
    { by apply join_row_nonempty in E. }
    exists x. split.
    + simpl. rewrite (join_row_fst right l x); [done|]. rewrite E. by left.
    + apply list_elem_of_bind. exists l. split; [|done]. rewrite E. by left.
Qed.
End merge_left_facts.

(** ** The outcome labeler *)

Lemma within_window_spec d : within_window d = 1%Z ↔ (7 ≤ d ≤ 365)%Z.
Proof.
  unfold within_window.
  destruct (Z.leb_spec 7 d), (Z.leb_spec d 365); simpl; split; (done || lia).
Qed.

Lemma within_window_binary d : within_window d = 0%Z ∨ within_window d = 1%Z.
Proof. unfold within_window. destruct (_ && _); auto. Qed.

Lemma within_window_outside d : ¬ (7 ≤ d ≤ 365)%Z → within_window d = 0%Z.
Proof.
  intros Hd. destruct (within_window_binary d) as [?|H1]; [done|].
  by apply within_window_spec in H1.
Qed.

(** The label of an index-date row joined with an outcome row, or with no
    outcome row. *)
Lemma label_present s m mace_date start :
  first_mace_date m = Some mace_date → index_date s = Some start →
  within_window (days_to_mace (s, Some m)) = within_window (days (mace_date - start)).
Proof. intros Hm Hs. unfold days_to_mace. simpl. by rewrite Hm, Hs. Qed.

Lemma label_absent s om :
  om ≫= first_mace_date = None → within_window (days_to_mace (s, om)) = 0%Z.
Proof. intros Hm. unfold days_to_mace. simpl. by rewrite Hm. Qed.

Lemma label_one_inv s om :
  within_window (days_to_mace (s, om)) = 1%Z →
  ∃ m mace_date start,
    om = Some m ∧ first_mace_date m = Some mace_date ∧
    index_date s = Some start ∧ (7 ≤ days (mace_date - start) ≤ 365)%Z.
Proof.
  unfold days_to_mace. simpl. intros Hw.
  destruct om as [m|]; simpl in *; [|by apply within_window_spec in Hw; lia].
  destruct (first_mace_date m) as [mace_date|] eqn:Em;
    [|by apply within_window_spec in Hw; lia].
  destruct (index_date s) as [start|] eqn:Es;
    [|by apply within_window_spec in Hw; lia].
  apply within_window_spec in Hw. eauto 10.
Qed.

(** In general the labeler emits, for an index-date row, one label per
    outcome row of the person, and one label when there is none. *)
Lemma calculate_mace_outcomes_length starts mace :
  length (calculate_mace_outcomes starts mace)
  = sum_list ((λ s, length (matches mace_person_id mace (index_person_id s)) `max` 1)
                <$> starts).
Proof.
  unfold calculate_mace_outcomes. by rewrite length_fmap, merge_left_length.
Qed.

Lemma calculate_mace_outcomes_unique starts mace :
  NoDup (mace_person_id <$> mace) →
  calculate_mace_outcomes starts mace
  = (λ s, OutcomeRow (index_person_id s)
            (within_window
               (days_to_mace (s, head (matches mace_person_id mace (index_person_id s))))))
      <$> starts.
Proof.
  intros Hnd. unfold calculate_mace_outcomes.
  rewrite merge_left_unique by done. by rewrite <-list_fmap_compose.
Qed.

(** C2, as amended.  When the outcome table has at most one row per person
    id, the labeler emits exactly one binary label for every row of the
    index-date table, and the label is 1 exactly when the outcome date of the
    person is present and falls between 7 and 365 whole days after the index
    date: 7 days gives 1, 6 days 0, 365 days 1, 366 days 0, and no outcome
    date gives 0. *)
Theorem calculate_mace_outcomes_spec (starts : list index_row) (mace : list mace_row) :
  NoDup (mace_person_id <$> mace) →
  let labels := calculate_mace_outcomes starts mace in
  length labels = length starts ∧
  ∀ i s, starts !! i = Some s →
    ∃ label,
      labels !! i = Some (OutcomeRow (index_person_id s) label) ∧
      (label = 0 ∨ label = 1)%Z ∧
      (label = 1%Z ↔
         ∃ m mace_date start,
           m ∈ mace ∧ mace_person_id m = index_person_id s ∧
           first_mace_date m = Some mace_date ∧ index_date s = Some start ∧
           (7 ≤ days (mace_date - start) ≤ 365)%Z) ∧
      (∀ m mace_date start,
         m ∈ mace → mace_person_id m = index_person_id s →
         first_mace_date m = Some mace_date → index_date s = Some start →
         (days (mace_date - start) = 7 → label = 1)%Z ∧
         (days (mace_date - start) = 6 → label = 0)%Z ∧
         (days (mace_date - start) = 365 → label = 1)%Z ∧
         (days (mace_date - start) = 366 → label = 0)%Z) ∧
      ((∀ m, m ∈ mace → mace_person_id m = index_person_id s →
             first_mace_date m = None) → label = 0%Z).
Proof.
  intros Hnd labels. subst labels.
  rewrite calculate_mace_outcomes_unique by done.
  split; [by rewrite length_fmap|].
  intros i s Hs. eexists. split; [by rewrite list_lookup_fmap, Hs|].
  remember (head (matches mace_person_id mace (index_person_id s))) as om eqn:Eom.
  assert (∀ m, m ∈ mace → mace_person_id m = index_person_id s → om = Some m)
    as Hom.
  { intros m Hm Hk. subst om.
    by rewrite (matches_unique_elem _ _ _ m Hnd Hm Hk). }
  assert (∀ m, om = Some m → m ∈ mace ∧ mace_person_id m = index_person_id s)
    as Hinv.
  { intros m ->. symmetry in Eom. apply head_Some in Eom as [ms Ems].
    assert (m ∈ matches mace_person_id mace (index_person_id s)) as Hm
      by (rewrite Ems; by left).
    apply list_elem_of_filter in Hm as [Hk Hm]. done. }
  clear Eom.
  split; [by destruct (within_window_binary (days_to_mace (s, om))); auto|].
  split; [split|split].
  - intros (m & mace_date & start & Hm & Hmd & Hsd & Hin)%label_one_inv.
    destruct (Hinv m Hm) as [? ?]. eauto 10.
  - intros (m & mace_date & start & Hm & Hk & Hmd & Hsd & Hin).
    rewrite (Hom m Hm Hk), (label_present _ _ _ _ Hmd Hsd).
    by apply within_window_spec.
  - intros m mace_date start Hm Hk Hmd Hsd.
    rewrite (Hom m Hm Hk), (label_present _ _ _ _ Hmd Hsd).
    repeat split; intros ->; by vm_compute.
  - intros Hnone. apply label_absent.
    destruct om as [m|]; [|done]. simpl.
    destruct (Hinv m eq_refl) as [? ?]. by apply Hnone.
Qed.

(** C2 as the specification states it fails when a person has two outcome
    rows: the one index-date row gets two labels. *)
Lemma calculate_mace_outcomes_two_rows :
  let starts := [IndexRow 1 (Some 0%Z)] in
  let mace := [MaceRow 1 (Some (8 * 86400)%Z); MaceRow 1 (Some (400 * 86400)%Z)] in
  calculate_mace_outcomes starts mace = [OutcomeRow 1 1; OutcomeRow 1 0] ∧
  length (calculate_mace_outcomes starts mace) ≠ length starts.
Proof. split; [by vm_compute|]. vm_compute. lia. Qed.

Lemma calculate_mace_outcomes_spec_witness :
  let starts := [IndexRow 1 (Some 0%Z); IndexRow 2 (Some 0%Z); IndexRow 3 (Some 0%Z)] in
  let mace := [MaceRow 1 (Some (7 * 86400)%Z); MaceRow 2 None] in
  NoDup (mace_person_id <$> mace) ∧
  length (calculate_mace_outcomes starts mace) = 3 ∧
  calculate_mace_outcomes starts mace !! 0 = Some (OutcomeRow 1 1).
Proof.
  intros starts mace.
  assert (NoDup (mace_person_id <$> mace)) as Hnd
    by (apply (bool_decide_unpack _); vm_compute; exact I).
  split; [exact Hnd|].
  destruct (calculate_mace_outcomes_spec starts mace Hnd) as [Hlen Hrows].
  split; [exact Hlen|].
  destruct (Hrows 0 (IndexRow 1 (Some 0%Z)) eq_refl) as (label & Hlook & _ & _ & Hb & _).
  rewrite Hlook. do 2 f_equal.
  destruct (Hb (MaceRow 1 (Some (7 * 86400)%Z)) (7 * 86400)%Z 0%Z) as [H7 _];
    [by left|reflexivity..|].
  apply H7. reflexivity.
Defined.

(** ** The assembler *)

Lemma insert_sorted_perm x l : insert_sorted x l ≡ₚ x :: l.
Proof.
  induction l as [|y l IH]; simpl; [done|].
  destruct (event_le x y); [done|]. rewrite IH. apply Permutation_swap.
Qed.

Lemma sort_values_perm data : sort_values data ≡ₚ data.
Proof.
  induction data as [|x data IH]; simpl; [done|].
  by rewrite insert_sorted_perm, IH.
Qed.

Lemma normalize_person_ids data p :
  p ∈ person_id <$> normalize data ↔ p ∈ person_id <$> data.
Proof.
  unfold normalize. rewrite sort_values_perm, <-list_fmap_compose.
  by rewrite !list_elem_of_fmap.
Qed.

Section odict_facts.
Context {V : Type}.
Implicit Types (d : odict V) (kvs : list (Z * V)) (k : Z) (v : V).

Lemma odict_set_fresh k v d : k ∉ d.*1 → odict_set k v d = d ++ [(k, v)].
Proof.
  induction d as [|[k' v'] d IH]; intros Hk; simpl; [done|].
  rewrite fmap_cons, not_elem_of_cons in Hk. destruct Hk as [Hne Hk].
  rewrite decide_False by done. by rewrite IH.
Qed.

Lemma odict_of_pairs_acc d kvs :
  NoDup (d ++ kvs).*1 → foldl (λ d kv, odict_set kv.1 kv.2 d) d kvs = d ++ kvs.
Proof.
  revert d. induction kvs as [|[k v] kvs IH]; intros d Hnd; simpl.
  { by rewrite app_nil_r. }
  rewrite odict_set_fresh.
  - rewrite IH; [by rewrite <-app_assoc|]. by rewrite <-app_assoc.
  - rewrite fmap_app, fmap_cons in Hnd. apply NoDup_app in Hnd as (_ & Hd & _).
    intros Hk. apply (Hd k Hk). by left.
Qed.

(** With distinct keys the dict lists the pairs as they were given. *)
Lemma odict_of_pairs_NoDup kvs : NoDup kvs.*1 → odict_of_pairs kvs = kvs.
Proof. intros. unfold odict_of_pairs. by rewrite odict_of_pairs_acc. Qed.

Lemma odict_get_elem d k v : NoDup d.*1 → odict_get k d = Some v ↔ (k, v) ∈ d.
Proof.
  induction d as [|[k' v'] d IH]; intros Hnd; simpl.
  { by rewrite elem_of_nil. }
  rewrite fmap_cons in Hnd. apply NoDup_cons in Hnd as [Hk' Hnd].
  rewrite elem_of_cons. case_decide as Hk.
  - subst k'. split; [intros [= ->]; by left|].
    intros [[= ->]|Hin]; [done|].
    destruct Hk'. by apply (list_elem_of_fmap_2 fst) in Hin.
  - rewrite IH by done. split; [by right|]. intros [[= -> ->]|?]; done.
Qed.
End odict_facts.

Lemma mapM_total {A B} (f : A → option B) (g : A → B) (l : list A) :
  Forall (λ x, f x = Some (g x)) l → mapM f l = Some (g <$> l).
Proof.
  induction 1 as [|x l Hx Hl IH]; [done|].
  cbn [mapM]. rewrite Hx. cbn [mbind option_bind].
  change ((fix go l := match l with
                       | [] => mret []
                       | x :: l => y ← f x; k ← go l; mret (y :: k)
                       end) l) with (mapM f l).
  by rewrite IH.
Qed.

Lemma foldl_max_list mx l : foldl Nat.max mx l = mx `max` max_list l.
Proof.
  revert mx. induction l as [|x l IH]; intros mx; simpl; [lia|].
  rewrite IH. lia.
Qed.

Lemma patient_tokens_length vocab events dates :
  length (patient_tokens vocab events dates) ≤ MAX_SEQ_LENGTH.
Proof.
  unfold patient_tokens. rewrite slice_last_length by apply MAX_SEQ_LENGTH_pos. lia.
Qed.

(** Under a vocabulary of [create_vocabulary] the tokenizer never raises. *)
Lemma tokenize_patient_data_total df events dates :
  tokenize_patient_data events dates (create_vocabulary df)
  = Some (patient_tokens (create_vocabulary df) events dates).
Proof.
  unfold tokenize_patient_data, untruncated_token_ids, patient_tokens.
  by rewrite create_vocabulary_pad.
Qed.


Section array_facts.
Context {A : Type}.
Implicit Types (l : list A) (x y : A).

Lemma insert_middle l1 l2 x y i :
  i = length l1 → <[i := y]> (l1 ++ x :: l2) = (l1 ++ [y]) ++ l2.
Proof.
  intros ->. rewrite insert_app_r_alt by lia.
  rewrite Nat.sub_diag. simpl. by rewrite <-app_assoc.
Qed.

Lemma array_set_middle l1 l2 x y i :
  i = length l1 → array_set i y (l1 ++ x :: l2) = Some ((l1 ++ [y]) ++ l2).
Proof.
  intros Hi. unfold array_set.
  rewrite decide_True by (rewrite length_app; simpl; lia).
  by rewrite insert_middle.
Qed.
End array_facts.

Lemma assign_prefix_zero tokens :
  length tokens ≤ MAX_SEQ_LENGTH →
  assign_prefix (replicate MAX_SEQ_LENGTH 0) (length tokens `min` MAX_SEQ_LENGTH)
                (take (length tokens `min` MAX_SEQ_LENGTH) tokens)
  = Some (pad_row tokens).
Proof.
  intros Hlen. rewrite Nat.min_l by done. rewrite take_ge by done.
  unfold assign_prefix. rewrite decide_True by (by rewrite length_replicate).
  by rewrite drop_replicate.
Qed.

(** ** Grouping *)

Lemma groupby_keys table :
  (groupby_person_id table).*1 = np_unique ((λ r, person_id r.1) <$> table).
Proof.
  unfold groupby_person_id. rewrite <-list_fmap_compose. apply list_fmap_id.
Qed.

Lemma groupby_keys_NoDup table : NoDup (groupby_person_id table).*1.
Proof. rewrite groupby_keys. apply np_unique_NoDup. Qed.

Lemma groupby_group table p rows :
  (p, rows) ∈ groupby_person_id table → rows = patient_rows p table ∧ rows ≠ [].
Proof.
  unfold groupby_person_id. intros (name & [= -> ->] & Hname)%list_elem_of_fmap.
  split; [done|].
  apply np_unique_elem, list_elem_of_fmap in Hname as (r & Hp & Hr).
  intros Hnil. eapply (filter_nil_not_elem_of _ _ r); [exact Hnil| |exact Hr].
  simpl. done.
Qed.

Lemma groupby_lookup table i ng :
  groupby_person_id table !! i = Some ng ↔
  np_unique ((λ r, person_id r.1) <$> table) !! i = Some ng.1 ∧
  ng.2 = patient_rows ng.1 table.
Proof.
  unfold groupby_person_id. rewrite list_lookup_fmap.
  destruct (np_unique _ !! i) as [name|]; simpl; [|naive_solver].
  destruct ng as [p rows]; simpl. unfold patient_rows. naive_solver.
Qed.

Lemma group_arrays_keys (groups : list (Z * list merged_row)) :
  (group_arrays <$> groups).*1 = groups.*1.
Proof. rewrite <-list_fmap_compose. by apply list_fmap_ext. Qed.

Lemma grouped_data_of_eq table :
  grouped_data_of table = Some (group_arrays <$> groupby_person_id table).
Proof.
  unfold grouped_data_of.
  rewrite (mapM_total _ group_arrays).
  - simpl. f_equal. apply odict_of_pairs_NoDup.
    rewrite group_arrays_keys. apply groupby_keys_NoDup.
  - apply Forall_forall. intros [p rows] Hin.
    apply groupby_group in Hin as [_ Hne].
    unfold group_arrays, iloc0, row_codes, row_dates. simpl.
    destruct rows as [|r rows]; [done|]. done.
Qed.

(** ** The main loop *)

Section main_loop.
Variable df : list event.
Local Abbreviation vocab := (create_vocabulary df).

Lemma loop_body_step (P : list (list nat)) (O : list (option Z)) (I : list Z)
    (R1 : list (list nat)) (R2 : list (option Z)) (R3 : list Z)
    (mx : nat) (item : Z * patient_arrays) :
  length O = length P → length I = length P →
  loop_body vocab
    (LoopState (P ++ replicate MAX_SEQ_LENGTH 0 :: R1)
               (O ++ Some 0%Z :: R2) (I ++ 0%Z :: R3) mx)
    (length P, item)
  = Some (LoopState ((P ++ [pad_row (item_tokens vocab item)]) ++ R1)
                    ((O ++ [item.2.2]) ++ R2)
                    ((I ++ [item.1]) ++ R3)
                    (mx `max` length (item_tokens vocab item))).
Proof.
  intros HO HI. destruct item as [p [[events dates] mace]].
  unfold loop_body, item_tokens. simpl.
  rewrite tokenize_patient_data_total. cbn [mbind option_bind].
  rewrite list_lookup_middle by done. cbn [mbind option_bind].
  rewrite assign_prefix_zero by apply patient_tokens_length.
  cbn [mbind option_bind].
  rewrite (array_set_middle O) by done. cbn [mbind option_bind].
  rewrite (array_set_middle I) by done. cbn [mbind option_bind].
  by rewrite insert_middle.
Qed.

Lemma loop_from (rest : list (Z * patient_arrays))
    (P : list (list nat)) (O : list (option Z)) (I : list Z) (mx : nat) :
  length O = length P → length I = length P →
  for_each (loop_body vocab)
    (LoopState (P ++ replicate (length rest) (replicate MAX_SEQ_LENGTH 0))
               (O ++ replicate (length rest) (Some 0%Z))
               (I ++ replicate (length rest) 0%Z) mx)
    (zip (seq (length P) (length rest)) rest)
  = Some (LoopState (P ++ (pad_row <$> (item_tokens vocab <$> rest)))
                    (O ++ ((λ g, g.2.2) <$> rest))
                    (I ++ (fst <$> rest))
                    (foldl Nat.max mx (length <$> (item_tokens vocab <$> rest)))).
Proof.
  revert P O I mx. induction rest as [|item rest IH]; intros P O I mx HO HI.
  { simpl. by rewrite !app_nil_r. }
  cbn [length replicate seq zip zip_with for_each].
  rewrite loop_body_step by done. cbn [mbind option_bind].
  replace (S (length P)) with (length (P ++ [pad_row (item_tokens vocab item)]))
    by (rewrite length_app; simpl; lia).
  rewrite IH by (rewrite !length_app; simpl; lia).
  rewrite !fmap_cons. simpl. by rewrite <-!app_assoc.
Qed.

Lemma loop_all (groups : list (Z * patient_arrays)) :
  let n := length groups in
  for_each (loop_body vocab)
    (LoopState (replicate n (replicate MAX_SEQ_LENGTH 0))
               (replicate n (Some 0%Z)) (replicate n 0%Z) 0)
    (enumerate groups)
  = Some (LoopState (pad_row <$> (item_tokens vocab <$> groups))
                    ((λ g, g.2.2) <$> groups) (fst <$> groups)
                    (max_list (length <$> (item_tokens vocab <$> groups)))).
Proof.
  intros n. subst n. unfold enumerate.
  pose proof (loop_from groups [] [] [] 0 eq_refl eq_refl) as Hloop.
  cbn [app length] in Hloop. rewrite Hloop. by rewrite foldl_max_list.
Qed.
End main_loop.

(** The assembler returns, and returns the arrays in closed form. *)
Lemma process_patient_data_eq data starts mace :
  process_patient_data data starts mace = Some (assembled data starts mace).
Proof.
  unfold process_patient_data. fold (joined_table data starts mace).
  rewrite grouped_data_of_eq. cbn [mbind option_bind].
  rewrite loop_all. cbn [mbind option_bind].
  cbn [sample_ids padded_sequences mace_outcomes max_seq_length].
  rewrite (mapM_total _ (length ∘ item_tokens (create_vocabulary (normalize data)))).
  - cbn [mbind option_bind]. unfold assembled. f_equal.
    rewrite odict_of_pairs_NoDup.
    + f_equal; [by rewrite list_fmap_compose|]. by rewrite !length_fmap.
    + rewrite fst_zip by (rewrite length_seq; lia).
      rewrite group_arrays_keys. apply groupby_keys_NoDup.
  - apply Forall_forall. intros [p [[events dates] mace']] _.
    rewrite tokenize_patient_data_total. cbn [mbind option_bind].
    unfold item_tokens. simpl. f_equal.
    apply Nat.min_l, patient_tokens_length.
Qed.

(** ** Rows of the saved arrays *)

Lemma joined_keys data starts mace :
  np_unique ((λ r, person_id r.1) <$> joined_table data starts mace)
  = np_unique (person_id <$> data).
Proof.
  apply np_unique_ext. intros p. unfold joined_table, merge_outcomes.
  rewrite <-normalize_person_ids.
  apply (merge_left_keys person_id outcome_person_id).
Qed.

Lemma zip_seq_elem {A} (l : list A) x i :
  (x, i) ∈ zip l (seq 0 (length l)) ↔ l !! i = Some x.
Proof.
  rewrite list_elem_of_lookup. split.
  - intros (j & Hj). apply lookup_zip_with_Some in Hj as (x' & i' & [= <- <-] & Hx & Hi).
    apply lookup_seq in Hi as [-> _]. done.
  - intros Hx. exists i. apply lookup_zip_with_Some. exists x, i.
    split; [done|]. split; [done|].
    apply lookup_seq. split; [done|]. by eapply lookup_lt_Some.
Qed.

Lemma zip_seq_lookup {A} (l : list A) x i :
  l !! i = Some x → zip l (seq 0 (length l)) !! i = Some (x, i).
Proof.
  intros Hx. apply lookup_zip_with_Some. exists x, i.
  split; [done|]. split; [done|].
  apply lookup_seq. split; [done|]. by eapply lookup_lt_Some.
Qed.

Lemma assembled_keys data starts mace :
  (group_arrays <$> groupby_person_id (joined_table data starts mace)).*1
  = np_unique (person_id <$> data).
Proof. by rewrite group_arrays_keys, groupby_keys, joined_keys. Qed.

Lemma assembled_mapping data starts mace :
  sample_id_to_index (assembled data starts mace)
  = zip (np_unique (person_id <$> data))
        (seq 0 (length (np_unique (person_id <$> data)))).
Proof.
  unfold assembled. cbn [sample_id_to_index].
  rewrite <-(assembled_keys data starts mace). by rewrite !length_fmap.
Qed.

Lemma mapping_get data starts mace p i :
  odict_get p (sample_id_to_index (assembled data starts mace)) = Some i ↔
  np_unique (person_id <$> data) !! i = Some p.
Proof.
  rewrite assembled_mapping, odict_get_elem, zip_seq_elem; [done|].
  rewrite fst_zip by (rewrite length_seq; lia). apply np_unique_NoDup.
Qed.

(** Row [i] of every array belongs to the [i]-th person id in ascending
    order: the padded tokens of the person's rows, their number, the label of
    the person's first row, and the pair of the mapping. *)
Lemma assembled_row data starts mace i p :
  np_unique (person_id <$> data) !! i = Some p →
  let r := assembled data starts mace in
  let rows := patient_rows p (joined_table data starts mace) in
  let tokens := patient_tokens (saved_vocab r) (row_codes rows) (row_dates rows) in
  ∃ first,
    head rows = Some first ∧
    saved_sequences r !! i = Some (pad_row tokens) ∧
    saved_lengths r !! i = Some (length tokens) ∧
    saved_mace_outcomes r !! i = Some (merged_mace first) ∧
    sample_id_to_index r !! i = Some (p, i).
Proof.
  intros Hp r rows tokens.
  assert (groupby_person_id (joined_table data starts mace) !! i = Some (p, rows))
    as Hgroup by (apply groupby_lookup; by rewrite joined_keys).
  assert (rows ≠ []) as Hne.
  { eapply groupby_group, list_elem_of_lookup_2, Hgroup. }
  destruct rows as [|first rows'] eqn:Erows; [done|].
  exists first. split; [done|].
  assert (sample_id_to_index r !! i = Some (p, i)) as Hmap.
  { subst r. rewrite assembled_mapping. by apply zip_seq_lookup. }
  revert Hmap. subst r tokens. unfold assembled.
  cbn [saved_sequences saved_lengths saved_mace_outcomes saved_vocab sample_id_to_index].
  intros Hmap. rewrite !list_lookup_fmap, Hgroup. simpl.
  done.
Qed.

Lemma assembled_lengths data starts mace :
  let r := assembled data starts mace in
  let n := length (np_unique (person_id <$> data)) in
  length (saved_sequences r) = n ∧ length (saved_lengths r) = n ∧
  length (saved_mace_outcomes r) = n ∧ length (sample_id_to_index r) = n.
Proof.
  intros r n. subst r n. rewrite assembled_mapping.
  unfold assembled. cbn [saved_sequences saved_lengths saved_mace_outcomes].
  rewrite !length_fmap, length_zip, length_seq.
  unfold groupby_person_id. rewrite length_fmap, joined_keys. lia.
Qed.

Lemma pad_row_lookup_tail tokens j :
  length tokens ≤ j < MAX_SEQ_LENGTH → pad_row tokens !! j = Some 0.
Proof.
  intros Hj. unfold pad_row. rewrite lookup_app_r by lia.
  apply lookup_replicate. split; [done|lia].
Qed.



(** ** Patients without a label row *)

Lemma calculate_mace_outcomes_keys starts mace p :
  p ∈ outcome_person_id <$> calculate_mace_outcomes starts mace ↔
  p ∈ index_person_id <$> starts.
Proof.
  unfold calculate_mace_outcomes. rewrite <-list_fmap_compose.
  apply (merge_left_keys index_person_id mace_person_id).
Qed.

Lemma matches_no_key {R} (kr : R → Z) (right : list R) k :
  k ∉ kr <$> right → matches kr right k = [].
Proof.
  intros Hk. apply filter_none, Forall_forall. intros r Hr Heq.
  apply Hk. rewrite <-Heq. by apply list_elem_of_fmap_2.
Qed.

Lemma patient_rows_joined data starts mace p :
  patient_rows p (joined_table data starts mace)
  = merge_left person_id outcome_person_id
      (matches person_id (normalize data) p)
      (calculate_mace_outcomes starts mace).
Proof.
  unfold patient_rows, joined_table, merge_outcomes.
  apply (merge_left_filter person_id outcome_person_id).
Qed.

Lemma matches_same_key {R} (kr : R → Z) (right : list R) k :
  Forall (λ r, kr r = k) (matches kr right k).
Proof. apply Forall_forall. by intros r [? _]%list_elem_of_filter. Qed.

Lemma patient_rows_labels data starts mace p :
  patient_rows p (joined_table data starts mace)
  = match matches outcome_person_id (calculate_mace_outcomes starts mace) p with
    | [] => (λ e, (e, None)) <$> matches person_id (normalize data) p
    | labels => matches person_id (normalize data) p
                  ≫= λ e, (λ o, (e, Some o)) <$> labels
    end.
Proof.
  rewrite patient_rows_joined.
  apply (merge_left_same_key person_id outcome_person_id), matches_same_key.
Qed.

(** C6 on the code.  A person of the event table with no row in the
    index-date table gets NaN, not 0, in the outcome array. *)
Theorem unlabelled_patient_nan (data : list event) (starts : list index_row)
    (mace : list mace_row) (p : Z) :
  p ∈ person_id <$> data →
  p ∉ index_person_id <$> starts →
  ∃ r i, process_patient_data data starts mace = Some r ∧
         odict_get p (sample_id_to_index r) = Some i ∧
         saved_mace_outcomes r !! i = Some None.
Proof.
  intros Hdata Hstarts.
  apply np_unique_elem, list_elem_of_lookup in Hdata as [i Hi].
  exists (assembled data starts mace), i.
  split; [apply process_patient_data_eq|].
  split; [by apply mapping_get|].
  destruct (assembled_row data starts mace i p Hi)
    as (first & Hfirst & _ & _ & Hmace & _).
  rewrite Hmace. do 2 f_equal.
  rewrite patient_rows_labels, matches_no_key in Hfirst
    by (by rewrite calculate_mace_outcomes_keys).
  destruct (matches person_id (normalize data) p); by simplify_eq/=.
Qed.

Lemma unlabelled_patient_nan_witness :
  let data := [Event 1 10 0; Event 2 10 0] in
  let starts := [IndexRow 2 (Some 0%Z)] in
  let mace := [MaceRow 2 (Some (30 * 86400)%Z)] in
  ∃ r, process_patient_data data starts mace = Some r ∧
       sample_id_to_index r = [(1%Z, 0); (2%Z, 1)] ∧
       saved_mace_outcomes r = [None; Some 1%Z].
Proof.
  intros data starts mace.
  destruct (unlabelled_patient_nan data starts mace 1) as (r & i & Hr & _ & _).
  - by left.
  - vm_compute. by intros [?|[]%elem_of_nil]%elem_of_cons.
  - exists r. split; [exact Hr|].
    assert (process_patient_data data starts mace
            = Some (assembled data starts mace)) as E
      by apply process_patient_data_eq.
    rewrite E in Hr. injection Hr as <-. by vm_compute.
Defined.

Lemma max_list_bound (l : list nat) (b : nat) :
  Forall (λ n, n ≤ b) l → max_list l ≤ b.
Proof. induction 1; simpl; lia. Qed.

(** C9 on the code.  The maximum that the summary prints is taken over the
    lengths of the lists the tokenizer returns, which are truncated already:
    it is the largest entry of the valid-length array and never exceeds
    [MAX_SEQ_LENGTH].  A person with 1100 events on one day has 1103 tokens
    before truncation, and the summary prints 1024. *)
Theorem reported_max_is_truncated :
  (∀ data starts mace,
     ∃ r, process_patient_data data starts mace = Some r ∧
          reported_max_seq_length r = max_list (saved_lengths r) ∧
          reported_max_seq_length r ≤ MAX_SEQ_LENGTH) ∧
  (let data := replicate 1100 (Event 1 7 0) in
   let starts := [IndexRow 1 (Some 0%Z)] in
   let mace := [MaceRow 1 (Some (30 * 86400)%Z)] in
   ∃ r full,
     process_patient_data data starts mace = Some r ∧
     untruncated_token_ids (concept_id <$> data) (event_date <$> data) (saved_vocab r)
       = Some full ∧
     length full = 1103 ∧
     reported_max_seq_length r = 1024).
Proof.
  split.
  - intros data starts mace. exists (assembled data starts mace).
    split; [apply process_patient_data_eq|]. split; [done|].
    unfold assembled. cbn [reported_max_seq_length].
    apply max_list_bound, Forall_fmap, Forall_fmap, Forall_forall.
    intros g _. apply patient_tokens_length.
  - intros data starts mace. exists (assembled data starts mace).
    eexists. split; [apply process_patient_data_eq|].
    split; [apply untruncated_token_ids_eq|].
    split; by vm_compute.
Qed.

(** ** Duplicated label rows *)

Lemma zip_fmap2 {A B C} (f : A → B) (g : A → C) (l : list A) :
  zip (f <$> l) (g <$> l) = (λ x, (f x, g x)) <$> l.
Proof.
  induction l as [|x l IH]; [done|].
  rewrite !fmap_cons. cbn [zip_with]. by rewrite IH.
Qed.

Lemma fmap_const_replicate {A B} (l : list A) (y : B) :
  (λ _, y) <$> l = replicate (length l) y.
Proof.
  induction l as [|x l IH]; [done|].
  rewrite fmap_cons. cbn [length replicate]. by rewrite IH.
Qed.

Lemma fmap_bind_replicate {A B} (f : A → B) (l : list A) k :
  f <$> (l ≫= replicate k) = (f <$> l) ≫= replicate k.
Proof.
  induction l as [|x l IH]; [done|].
  rewrite fmap_cons, !bind_cons, fmap_app, IH. by rewrite fmap_replicate.
Qed.

(** The rows of a person with label rows [labels]: every event row once per
    label row, in a row. *)
Lemma replicated_rows {A} (f : event → A) (events : list event)
    (labels : list outcome_row) :
  (f ∘ fst) <$> (events ≫= λ e, (λ o, (e, Some o)) <$> labels)
  = (f <$> events) ≫= replicate (length labels).
Proof.
  induction events as [|e events IH]; [done|].
  rewrite fmap_cons, !bind_cons, fmap_app, IH. f_equal.
  rewrite <-list_fmap_compose. apply (fmap_const_replicate labels (f e)).
Qed.

Lemma bind_replicate_1 {A} (l : list A) : l ≫= replicate 1 = l.
Proof.
  induction l as [|x l IH]; [done|]. rewrite bind_cons, IH. done.
Qed.

(** The group of a person in closed form: every event row of the person (cast
    and sorted) once per label row of the person, or once when there is none;
    the saved outcome is the label of the person's first label row, NaN when
    there is none. *)
Lemma group_of_person data starts mace p i :
  np_unique (person_id <$> data) !! i = Some p →
  let events := matches person_id (normalize data) p in
  let labels := matches outcome_person_id (calculate_mace_outcomes starts mace) p in
  let rows := patient_rows p (joined_table data starts mace) in
  events ≠ [] ∧
  row_codes rows = (concept_id <$> events) ≫= replicate (length labels `max` 1) ∧
  row_dates rows = (event_date <$> events) ≫= replicate (length labels `max` 1) ∧
  saved_mace_outcomes (assembled data starts mace) !! i
    = Some (mace_12m <$> head labels).
Proof.
  intros Hi events labels rows.
  destruct (assembled_row data starts mace i p Hi)
    as (first & Hfirst & _ & _ & Hmace & _).
  fold rows in Hfirst. rewrite Hmace. clear Hmace.
  pose proof (patient_rows_labels data starts mace p) as Hrows.
  fold rows events labels in Hrows.
  assert (events ≠ []) as Hne.
  { intros Hnil. rewrite Hnil in Hrows. rewrite Hrows in Hfirst.
    by destruct labels. }
  split; [exact Hne|].
  destruct labels as [|o os].
  - rewrite Hrows in Hfirst |- *. unfold row_codes, row_dates.
    rewrite <-!list_fmap_compose, !bind_replicate_1.
    split; [done|]. split; [done|].
    destruct events as [|e events']; [done|].
    simpl in Hfirst. by injection Hfirst as <-.
  - replace (length (o :: os) `max` 1) with (length (o :: os)) by (simpl; lia).
    rewrite Hrows in Hfirst |- *. unfold row_codes, row_dates.
    rewrite !replicated_rows. split; [done|]. split; [done|].
    destruct events as [|e events']; [done|].
    simpl in Hfirst. by injection Hfirst as <-.
Qed.

(** C1. The assembler returns; with [N] the number of distinct person ids of
    the event table, every saved array has [N] rows, and for every [i < N] one
    person id [p] is mapped to [i]; row [i] of the token matrix is the padded
    tokenization of the group of [p], which holds the event rows of [p] (cast
    and sorted by date), each once per label row of [p]; entry [i] of the
    outcome array is the label of the first row that [calculate_mace_outcomes]
    emits for [p] (NaN when it emits none), and entry [i] of the valid-length
    array is the token count of [p]; the mapping is a bijection from the
    person ids of the event table onto [0 .. N-1]. *)
Theorem row_alignment (data : list event) (starts : list index_row)
    (mace : list mace_row) :
  ∃ r, process_patient_data data starts mace = Some r ∧
  let N := length (remove_dups (person_id <$> data)) in
  let mapping := sample_id_to_index r in
  (length (saved_sequences r) = N ∧ length (saved_lengths r) = N ∧
   length (saved_mace_outcomes r) = N ∧ length mapping = N) ∧
  (∀ i, i < N →
     ∃ p rows tokens first,
       mapping !! i = Some (p, i) ∧
       odict_get p mapping = Some i ∧
       p ∈ person_id <$> data ∧
       rows = patient_rows p (joined_table data starts mace) ∧
       head rows = Some first ∧
       tokenize_patient_data (row_codes rows) (row_dates rows) (saved_vocab r)
         = Some tokens ∧
       saved_sequences r !! i = Some (pad_row tokens) ∧
       saved_mace_outcomes r !! i = Some (merged_mace first) ∧
       saved_lengths r !! i = Some (length tokens) ∧
       let events := matches person_id (normalize data) p in
       let labels :=
         matches outcome_person_id (calculate_mace_outcomes starts mace) p in
       events ≠ [] ∧
       row_codes rows
         = (concept_id <$> events) ≫= replicate (length labels `max` 1) ∧
       row_dates rows
         = (event_date <$> events) ≫= replicate (length labels `max` 1) ∧
       saved_mace_outcomes r !! i = Some (mace_12m <$> head labels)) ∧
  (∀ p, p ∈ person_id <$> data ↔ ∃ i, i < N ∧ odict_get p mapping = Some i) ∧
  (∀ p q i, odict_get p mapping = Some i → odict_get q mapping = Some i → p = q) ∧
  (∀ i, i < N → ∃ p, odict_get p mapping = Some i).
Proof.
  exists (assembled data starts mace).
  split; [apply process_patient_data_eq|].
  intros N mapping. subst N mapping. rewrite <-np_unique_length.
  split; [apply assembled_lengths|].
  split; [|split; [|split]].
  - intros i Hi.
    destruct (lookup_lt_is_Some_2 _ _ Hi) as [p Hp].
    destruct (assembled_row data starts mace i p Hp)
      as (first & Hfirst & Hseq & Hlen & Hmace & Hmap).
    destruct (group_of_person data starts mace p i Hp)
      as (Hne & Hcodes & Hdates & Hlabel).
    eexists p, _, _, first.
    split; [exact Hmap|]. split; [by apply mapping_get|].
    split; [by eapply np_unique_elem, list_elem_of_lookup_2|].
    split; [reflexivity|]. split; [exact Hfirst|].
    split; [apply tokenize_patient_data_total|].
    split; [exact Hseq|]. split; [exact Hmace|]. split; [exact Hlen|].
    intros events labels. done.
  - intros p. rewrite <-np_unique_elem, list_elem_of_lookup.
    setoid_rewrite mapping_get. split.
    + intros [i Hi]. exists i. split; [by eapply lookup_lt_Some|done].
    + intros (i & _ & Hi). eauto.
  - intros p q i Hp%mapping_get Hq%mapping_get. congruence.
  - intros i Hi. destruct (lookup_lt_is_Some_2 _ _ Hi) as [p Hp].
    exists p. by apply mapping_get.
Qed.

Lemma expand_codes_app k ids1 ids2 :
  expand_codes k (ids1 ++ ids2) = expand_codes k ids1 ++ expand_codes k ids2.
Proof. unfold expand_codes. apply bind_app. Qed.

Lemma expand_codes_structural k id ids :
  structural id → expand_codes k (id :: ids) = id :: expand_codes k ids.
Proof. intros. unfold expand_codes. by rewrite bind_cons, decide_True. Qed.

Lemma expand_codes_code k id ids :
  ¬ structural id → expand_codes k (id :: ids) = replicate k id ++ expand_codes k ids.
Proof. intros. unfold expand_codes. by rewrite bind_cons, decide_False. Qed.

Lemma count_replicate_ne (x y : nat) k : x ≠ y → count x (replicate k y) = 0.
Proof.
  intros Hne. induction k as [|k IH]; [done|].
  simpl. by rewrite count_cons_ne.
Qed.

(** Writing the codes several times leaves the structural ids as they are. *)
Lemma count_expand_codes x k ids :
  structural x → count x (expand_codes k ids) = count x ids.
Proof.
  intros Hx. induction ids as [|id ids IH]; [done|].
  destruct (decide (structural id)) as [Hid|Hid].
  - rewrite expand_codes_structural by done.
    destruct (decide (x = id)) as [->|Hne].
    + by rewrite !count_cons_eq, IH.
    + by rewrite !count_cons_ne, IH.
  - rewrite expand_codes_code, count_app, IH by done.
    assert (x ≠ id) as Hne by (by intros ->).
    by rewrite count_replicate_ne, count_cons_ne.
Qed.

Section repeated_events.
Variable df : list event.
Local Abbreviation vocab := (create_vocabulary df).

Lemma loop_ids_same_date d c n tail :
  token_id vocab <$> tokenize_loop (Some d) [] (replicate n (d, c) ++ tail)
  = replicate n (code_id vocab c)
    ++ (token_id vocab <$> tokenize_loop (Some d) [] tail).
Proof.
  induction n as [|n IH]; [done|].
  cbn [replicate app]. rewrite loop_ids_cons, decide_True by done.
  simpl. by rewrite IH.
Qed.

Lemma loop_ids_repeat prev pairs k :
  0 < k →
  token_id vocab <$> tokenize_loop prev [] (pairs ≫= replicate k)
  = expand_codes k (token_id vocab <$> tokenize_loop prev [] pairs).
Proof.
  intros Hk. destruct k as [|k]; [lia|]. clear Hk.
  revert prev. induction pairs as [|[d c] rest IH]; intros prev; [done|].
  rewrite bind_cons. cbn [replicate app].
  rewrite !loop_ids_cons, loop_ids_same_date, IH, expand_codes_app.
  rewrite expand_codes_code by apply code_id_not_structural.
  cbn [replicate app]. f_equal.
  case_decide; [done|].
  destruct prev; simpl;
    rewrite ?expand_codes_structural by (unfold structural; lia); done.
Qed.

Lemma untruncated_repeat events k :
  0 < k →
  untruncated_token_ids ((concept_id <$> events) ≫= replicate k)
                        ((event_date <$> events) ≫= replicate k) vocab
  = expand_codes k <$>
      untruncated_token_ids (concept_id <$> events) (event_date <$> events) vocab.
Proof.
  intros Hk. rewrite !untruncated_token_ids_eq. simpl. f_equal.
  rewrite <-!fmap_bind_replicate, !zip_fmap2, fmap_bind_replicate.
  rewrite loop_ids_repeat by done.
  by rewrite expand_codes_app.
Qed.
End repeated_events.

Lemma filter_fmap {A B} (f : A → B) (P : B → Prop) `{∀ y, Decision (P y)}
    (l : list A) :
  filter P (f <$> l) = f <$> filter (λ x, P (f x)) l.
Proof.
  induction l as [|x l IH]; [done|].
  rewrite fmap_cons, !filter_cons. simpl. case_decide; by rewrite IH.
Qed.

Lemma merge_left_same_key_length {L R} (kl : L → Z) (kr : R → Z)
    (left : list L) (right : list R) (k : Z) :
  Forall (λ l, kl l = k) left →
  length (merge_left kl kr left right)
  = length left * (length (matches kr right k) `max` 1).
Proof.
  intros Hk. rewrite merge_left_length.
  induction Hk as [|l left Hl Hleft IH]; [done|].
  rewrite fmap_cons. simpl. rewrite IH, Hl. lia.
Qed.

(** The label rows of a person: one per index-date row and outcome row. *)
Lemma label_rows_count starts mace p :
  length (matches outcome_person_id (calculate_mace_outcomes starts mace) p)
  = length (matches index_person_id starts p)
    * (length (matches mace_person_id mace p) `max` 1).
Proof.
  unfold calculate_mace_outcomes, matches at 1.
  rewrite filter_fmap, length_fmap. simpl.
  rewrite (merge_left_filter index_person_id mace_person_id).
  apply merge_left_same_key_length, matches_same_key.
Qed.

(** The group of a person with [K ≥ 1] label rows: every event row [K]
    times in a row, and the tokens and the stored label that follow. *)
Lemma replicated_group data starts mace p i :
  let labels := matches outcome_person_id (calculate_mace_outcomes starts mace) p in
  let events := matches person_id (normalize data) p in
  let rows := patient_rows p (joined_table data starts mace) in
  let vocab := create_vocabulary (normalize data) in
  np_unique (person_id <$> data) !! i = Some p →
  0 < length labels →
  rows = (events ≫= λ e, (λ o, (e, Some o)) <$> labels) ∧
  row_codes rows = (concept_id <$> events) ≫= replicate (length labels) ∧
  row_dates rows = (event_date <$> events) ≫= replicate (length labels) ∧
  untruncated_token_ids (row_codes rows) (row_dates rows) vocab
    = expand_codes (length labels)
        <$> untruncated_token_ids (concept_id <$> events) (event_date <$> events) vocab ∧
  ∃ e first_label,
    head events = Some e ∧ head labels = Some first_label ∧
    head rows = Some (e, Some first_label) ∧
    saved_mace_outcomes (assembled data starts mace) !! i
      = Some (Some (mace_12m first_label)).
Proof.
  intros labels events rows vocab Hi Hlabels.
  destruct (assembled_row data starts mace i p Hi)
    as (first & Hfirst & _ & _ & Hmace & _).
  fold rows in Hfirst.
  assert (rows = events ≫= λ e, (λ o, (e, Some o)) <$> labels) as Hrows.
  { unfold rows. rewrite patient_rows_labels. fold labels.
    by destruct labels; [simpl in *; lia|]. }
  assert (row_codes rows = (concept_id <$> events) ≫= replicate (length labels))
    as Hcodes by (rewrite Hrows; unfold row_codes; by rewrite replicated_rows).
  assert (row_dates rows = (event_date <$> events) ≫= replicate (length labels))
    as Hdates by (rewrite Hrows; unfold row_dates; by rewrite replicated_rows).
  split; [exact Hrows|]. split; [exact Hcodes|]. split; [exact Hdates|].
  split; [rewrite Hcodes, Hdates; by apply untruncated_repeat|].
  rewrite Hrows in Hfirst.
  destruct events as [|e events']; [done|].
  destruct labels as [|l labels']; [simpl in *; lia|].
  exists e, l. split; [done|]. split; [done|].
  simpl in Hfirst. injection Hfirst as <-.
  split; [by rewrite Hrows|]. exact Hmace.
Qed.

(** C10, as amended.  For a person with [k > 1] rows in the index-date
    table and at most one row in the outcome table, the labeler emits [k]
    label rows, and the left join writes every event row of the person [k]
    times in a row: the untruncated token sequence is that of the person's
    events with every code id [k] times in a row and the same day-boundary
    and separator ids, and the stored label is the label of the first of the
    replicated rows, that is of the person's first label row. *)
Theorem duplicated_index_rows (data : list event) (starts : list index_row)
    (mace : list mace_row) (p : Z) (k : nat) :
  let labels := matches outcome_person_id (calculate_mace_outcomes starts mace) p in
  let events := matches person_id (normalize data) p in
  p ∈ person_id <$> data →
  length (matches index_person_id starts p) = k →
  1 < k →
  length (matches mace_person_id mace p) ≤ 1 →
  length labels = k ∧
  ∃ r i rows ids1 first first_label,
    process_patient_data data starts mace = Some r ∧
    odict_get p (sample_id_to_index r) = Some i ∧
    rows = patient_rows p (joined_table data starts mace) ∧
    rows = (events ≫= λ e, (λ o, (e, Some o)) <$> labels) ∧
    row_codes rows = (concept_id <$> events) ≫= replicate k ∧
    row_dates rows = (event_date <$> events) ≫= replicate k ∧
    untruncated_token_ids (concept_id <$> events) (event_date <$> events) (saved_vocab r)
      = Some ids1 ∧
    untruncated_token_ids (row_codes rows) (row_dates rows) (saved_vocab r)
      = Some (expand_codes k ids1) ∧
    count 3 (expand_codes k ids1) = count 3 ids1 ∧
    count 2 (expand_codes k ids1) = count 2 ids1 ∧
    head rows = Some first ∧
    head labels = Some first_label ∧
    first.2 = Some first_label ∧
    saved_mace_outcomes r !! i = Some (Some (mace_12m first_label)).
Proof.
  intros labels events Hdata Hindex Hk Hmace.
  assert (length labels = k) as Hlabels.
  { unfold labels. rewrite label_rows_count, Hindex. nia. }
  split; [exact Hlabels|].
  apply np_unique_elem, list_elem_of_lookup in Hdata as [i Hi].
  destruct (replicated_group data starts mace p i Hi)
    as (Hrows & Hcodes & Hdates & Hids & e & first_label & He & Hl & Hfirst & Hlabel).
  { fold labels. lia. }
  fold labels events in Hrows, Hcodes, Hdates, Hids, He, Hl.
  rewrite Hlabels in Hcodes, Hdates, Hids.
  eexists (assembled data starts mace), i, _, _, _, first_label.
  split; [apply process_patient_data_eq|].
  split; [by apply mapping_get|].
  split; [reflexivity|]. split; [exact Hrows|].
  split; [exact Hcodes|]. split; [exact Hdates|].
  split; [apply untruncated_token_ids_eq|].
  split.
  { unfold assembled. cbn [saved_vocab].
    rewrite Hids. by rewrite untruncated_token_ids_eq. }
  split; [apply count_expand_codes; unfold structural; lia|].
  split; [apply count_expand_codes; unfold structural; lia|].
  split; [exact Hfirst|]. split; [exact Hl|]. split; [done|].
  exact Hlabel.
Qed.

(** C10 as the specification states it fails when the person also has two
    outcome rows: with two index-date rows the labeler emits four label rows, and the
    join writes every event row four times. *)
Lemma duplicated_outcome_rows :
  let data := [Event 1 10 0] in
  let starts := [IndexRow 1 (Some 0%Z); IndexRow 1 (Some 0%Z)] in
  let mace := [MaceRow 1 (Some (10 * 86400)%Z); MaceRow 1 (Some (20 * 86400)%Z)] in
  let rows := patient_rows 1 (joined_table data starts mace) in
  length (matches index_person_id starts 1) = 2 ∧
  length (matches outcome_person_id (calculate_mace_outcomes starts mace) 1) = 4 ∧
  row_codes rows = [10; 10; 10; 10]%Z ∧
  row_codes rows ≠ [10; 10]%Z ∧
  ∃ r, process_patient_data data starts mace = Some r ∧
       untruncated_token_ids (row_codes rows) (row_dates rows) (saved_vocab r)
         = Some [1; 3; 4; 4; 4; 4; 2].
Proof.
  intros data starts mace rows.
  split; [by vm_compute|]. split; [by vm_compute|].
  split; [by vm_compute|]. split; [by vm_compute|].
  exists (assembled data starts mace).
  split; [apply process_patient_data_eq|]. by vm_compute.
Qed.

Lemma duplicated_index_rows_witness :
  let data := [Event 1 10 86400; Event 1 30 172800; Event 1 20 86400] in
  let starts := [IndexRow 1 (Some 0%Z); IndexRow 1 (Some 86400%Z)] in
  let mace := [MaceRow 1 (Some (8 * 86400)%Z)] in
  ∃ r,
    process_patient_data data starts mace = Some r ∧
    untruncated_token_ids [10; 20; 30]%Z [86400; 86400; 172800]%Z (saved_vocab r)
      = Some [1; 3; 4; 5; 2; 3; 6; 2] ∧
    untruncated_token_ids [10; 10; 20; 20; 30; 30]%Z
      [86400; 86400; 86400; 86400; 172800; 172800]%Z (saved_vocab r)
      = Some [1; 3; 4; 4; 5; 5; 2; 3; 6; 6; 2] ∧
    saved_mace_outcomes r = [Some 1%Z].
Proof.
  intros data starts mace.
  destruct (duplicated_index_rows data starts mace 1 2)
    as (_ & r & i & rows & ids1 & first & first_label & Hr & _).
  - by left.
  - reflexivity.
  - lia.
  - vm_compute. lia.
  - exists r. split; [exact Hr|].
    assert (process_patient_data data starts mace
            = Some (assembled data starts mace)) as E
      by apply process_patient_data_eq.
    rewrite E in Hr. injection Hr as <-. by vm_compute.
Defined.

(** ** The mortality label aligner *)

Lemma death_12m_spec row :
  death_12m row = 1%Z ↔
  ∃ q, days_to_death row = Some q ∧ Qle 0 q ∧ Qle q 365.
Proof.
  unfold death_12m. destruct (days_to_death row) as [q|]; [|naive_solver].
  destruct (Qle_bool 0 q) eqn:E0, (Qle_bool q 365) eqn:E1; simpl.
  - apply Qle_bool_iff in E0, E1. naive_solver.
  - split; [done|]. intros (q' & [= <-] & _ & H1%Qle_bool_iff). congruence.
  - split; [done|]. intros (q' & [= <-] & H0%Qle_bool_iff & _). congruence.
  - split; [done|]. intros (q' & [= <-] & H0%Qle_bool_iff & _). congruence.
Qed.

Lemma death_12m_binary row : death_12m row = 0%Z ∨ death_12m row = 1%Z.
Proof.
  unfold death_12m. destruct (days_to_death row); [|by left].
  destruct (_ && _); auto.
Qed.

(** The elapsed days as a fraction of the elapsed seconds. *)
Lemma days_to_death_spec row q :
  days_to_death row = Some q ↔
  ∃ d e, death_date row = Some d ∧ first_exposure_date row = Some e ∧
         q = Qmake (d - e) 86400.
Proof.
  unfold days_to_death.
  destruct (death_date row), (first_exposure_date row); naive_solver.
Qed.

Lemma days_in_window d e :
  Qle 0 (Qmake (d - e) 86400) ∧ Qle (Qmake (d - e) 86400) 365
  ↔ (0 ≤ d - e ≤ 365 * 86400)%Z.
Proof. unfold Qle. simpl. lia. Qed.

(** [dict(zip(keys, values))] keeps, for a key, the value of its last row. *)
Lemma dict_of_rows_lookup {R V} (k : R → Z) (v : R → V) (rows : list R) key :
  dict_of_pairs (zip (k <$> rows) (v <$> rows)) !! key
  = v <$> last (matches k rows key).
Proof.
  rewrite zip_fmap2. unfold matches.
  induction rows as [|row rows IH] using rev_ind; [done|].
  rewrite fmap_app, filter_app. cbn [fmap list_fmap].
  rewrite dict_of_pairs_snoc, filter_cons, filter_nil.
  case_decide as Hk.
  - rewrite Hk, lookup_insert_eq. by rewrite last_snoc.
  - rewrite lookup_insert_ne by done. by rewrite app_nil_r.
Qed.

Lemma death_dict_lookup deaths p :
  death_dict deaths !! p = death_12m <$> last (matches death_person_id deaths p).
Proof. apply dict_of_rows_lookup. Qed.

Lemma death_loop deaths (ids : list Z) (pre : list Z) :
  for_each (λ death_outcomes (item : Z * nat),
              array_set item.2 (default 0%Z (death_dict deaths !! item.1))
                        death_outcomes)
           (pre ++ replicate (length ids) 0%Z)
           (zip ids (seq (length pre) (length ids)))
  = Some (pre ++ ((λ p, default 0%Z (death_dict deaths !! p)) <$> ids)).
Proof.
  revert pre. induction ids as [|p ids IH]; intros pre.
  { simpl. by rewrite app_nil_r. }
  cbn [length replicate seq zip_with for_each]. simpl.
  rewrite array_set_middle by done. cbn [mbind option_bind].
  replace (S (length pre))
    with (length (pre ++ [default 0%Z (death_dict deaths !! p)]))
    by (rewrite length_app; simpl; lia).
  rewrite IH. by rewrite <-app_assoc.
Qed.

(** On the mapping of the assembler the loop never raises: entry [i] is the
    dict entry of the person mapped to [i], or [0]. *)
Lemma death_outcomes_of_eq deaths (ids : list Z) :
  death_outcomes_of deaths (zip ids (seq 0 (length ids)))
  = Some ((λ p, default 0%Z (death_dict deaths !! p)) <$> ids).
Proof.
  unfold death_outcomes_of.
  rewrite length_zip, length_seq, Nat.min_id.
  apply (death_loop deaths ids []).
Qed.

Lemma death_dict_extra deaths extra p :
  p ∉ death_person_id <$> extra →
  death_dict (deaths ++ extra) !! p = death_dict deaths !! p.
Proof.
  intros Hp. rewrite !death_dict_lookup. unfold matches.
  rewrite filter_app. fold (matches death_person_id extra p).
  by rewrite matches_no_key, app_nil_r.
Qed.

(** C7, as amended.  On the mapping returned by the assembler the aligner
    returns an array as long as the mapping; when the death table has at most
    one row per person id, entry [i] is 1 exactly when the person mapped to
    [i] has a row in the death table with both dates present and the death
    date between 0 and 365 days after the first-exposure date, and 0
    otherwise, also for a person outside the death table; every index of the
    mapping gets its value, and rows of persons outside the mapping change
    nothing. *)
Theorem mortality_alignment (data : list event) (starts : list index_row)
    (mace : list mace_row) (deaths : list death_row) :
  NoDup (death_person_id <$> deaths) →
  ∃ r death_outcomes,
    process_patient_data data starts mace = Some r ∧
    let id_mapping := sample_id_to_index r in
    death_outcomes_of deaths id_mapping = Some death_outcomes ∧
    length death_outcomes = length id_mapping ∧
    (∀ i, i < length death_outcomes → ∃ p, odict_get p id_mapping = Some i) ∧
    (∀ p i, odict_get p id_mapping = Some i →
       ∃ label,
         death_outcomes !! i = Some label ∧
         (label = 0 ∨ label = 1)%Z ∧
         (label = 1%Z ↔
            ∃ row q, row ∈ deaths ∧ death_person_id row = p ∧
                     days_to_death row = Some q ∧ Qle 0 q ∧ Qle q 365) ∧
         (p ∉ death_person_id <$> deaths → label = 0%Z)) ∧
    (∀ extra,
       Forall (λ row, odict_get (death_person_id row) id_mapping = None) extra →
       death_outcomes_of (deaths ++ extra) id_mapping = Some death_outcomes).
Proof.
  intros Hnd.
  exists (assembled data starts mace),
         ((λ p, default 0%Z (death_dict deaths !! p))
            <$> np_unique (person_id <$> data)).
  split; [apply process_patient_data_eq|].
  intros id_mapping. subst id_mapping. rewrite assembled_mapping.
  set (ids := np_unique (person_id <$> data)).
  assert (NoDup (zip ids (seq 0 (length ids))).*1) as Hkeys.
  { rewrite fst_zip by (rewrite length_seq; lia). apply np_unique_NoDup. }
  split; [apply death_outcomes_of_eq|].
  split; [by rewrite length_fmap, length_zip, length_seq, Nat.min_id|].
  split; [|split].
  - intros i Hi. rewrite length_fmap in Hi.
    destruct (lookup_lt_is_Some_2 _ _ Hi) as [p Hp].
    exists p. by apply odict_get_elem, zip_seq_elem.
  - intros p i Hp%odict_get_elem%zip_seq_elem; [|done].
    eexists. split; [by rewrite list_lookup_fmap, Hp|].
    rewrite death_dict_lookup.
    destruct (decide (p ∈ death_person_id <$> deaths)) as [Hin|Hout].
    + apply list_elem_of_fmap in Hin as (row & Hk & Hrow). symmetry in Hk.
      rewrite (matches_unique_elem _ _ _ row Hnd Hrow Hk). simpl.
      split; [by destruct (death_12m_binary row); auto|].
      split; [|by intros []; apply list_elem_of_fmap; eauto].
      rewrite death_12m_spec. split.
      * intros (q & ? & ? & ?). by exists row, q.
      * intros (row' & q & Hrow' & Hk' & ? & ? & ?).
        assert (row' = row) as ->; [|by exists q].
        pose proof (matches_unique_elem _ _ _ row' Hnd Hrow' Hk') as E.
        rewrite (matches_unique_elem _ _ _ row Hnd Hrow Hk) in E. congruence.
    + rewrite matches_no_key by done. simpl.
      split; [by left|]. split; [|done].
      split; [done|]. intros (row & q & Hrow & Hk & _).
      destruct Hout. apply list_elem_of_fmap. eauto.
  - intros extra Hextra. rewrite death_outcomes_of_eq. f_equal.
    apply list_fmap_ext. intros i p Hp. f_equal.
    apply death_dict_extra. intros (row & -> & Hrow)%list_elem_of_fmap.
    eapply Forall_forall in Hextra; [|exact Hrow]. simpl in Hextra.
    apply zip_seq_elem, odict_get_elem in Hp; [|done]. congruence.
Qed.

(** C7 as the specification states it fails when a person has two rows in
    the death table: the last row decides, here against an earlier row with a death
    one day after the first exposure. *)
Lemma mortality_last_row_decides :
  let data := [Event 1 10 0] in
  let starts := [IndexRow 1 (Some 0%Z)] in
  let mace := [MaceRow 1 None] in
  let deaths := [DeathRow 1 (Some 0%Z) (Some 86400%Z); DeathRow 1 (Some 0%Z) None] in
  ∃ r death_outcomes,
    process_patient_data data starts mace = Some r ∧
    odict_get 1 (sample_id_to_index r) = Some 0 ∧
    death_outcomes_of deaths (sample_id_to_index r) = Some death_outcomes ∧
    death_outcomes !! 0 = Some 0%Z ∧
    ∃ row q, row ∈ deaths ∧ death_person_id row = 1%Z ∧
             days_to_death row = Some q ∧ Qle 0 q ∧ Qle q 365.
Proof.
  intros data starts mace deaths. exists (assembled data starts mace). eexists.
  split; [apply process_patient_data_eq|].
  split; [by vm_compute|]. split; [by vm_compute|]. split; [done|].
  exists (DeathRow 1 (Some 0%Z) (Some 86400%Z)), (Qmake 86400 86400).
  split; [by left|]. split; [done|]. split; [done|].
  split; by vm_compute.
Qed.

Lemma mortality_alignment_witness :
  let data := [Event 1 10 0; Event 2 10 0; Event 3 10 0] in
  let starts := [IndexRow 1 (Some 0%Z); IndexRow 2 (Some 0%Z); IndexRow 3 (Some 0%Z)] in
  let mace := [MaceRow 1 None] in
  let deaths := [DeathRow 1 (Some 0%Z) (Some (365 * 86400)%Z);
                 DeathRow 2 (Some 0%Z) (Some (365 * 86400 + 1)%Z);
                 DeathRow 9 (Some 0%Z) (Some 0%Z)] in
  NoDup (death_person_id <$> deaths) ∧
  ∃ r, process_patient_data data starts mace = Some r ∧
       death_outcomes_of deaths (sample_id_to_index r) = Some [1; 0; 0]%Z.
Proof.
  intros data starts mace deaths.
  assert (NoDup (death_person_id <$> deaths)) as Hnd
    by (apply (bool_decide_unpack _); vm_compute; exact I).
  split; [exact Hnd|].
  destruct (mortality_alignment data starts mace deaths Hnd)
    as (r & death_outcomes & Hr & Hout & _).
  exists r. split; [exact Hr|].
  assert (process_patient_data data starts mace
          = Some (assembled data starts mace)) as E
    by apply process_patient_data_eq.
  rewrite E in Hr. injection Hr as <-. by vm_compute.
Defined.

(** ** What the assembler passes to the tokenizer *)

Lemma event_le_spec a b :
  event_order a b ↔
  (person_id a < person_id b
   ∨ (person_id a = person_id b ∧ event_date a ≤ event_date b))%Z.
Proof.
  unfold event_order, event_le.
  rewrite orb_true_iff, andb_true_iff, Z.ltb_lt, Z.eqb_eq, Z.leb_le. tauto.
Qed.

Lemma event_order_total a b : ¬ event_order a b → event_order b a.
Proof. rewrite !event_le_spec. lia. Qed.

Lemma event_order_trans a b c : event_order a b → event_order b c → event_order a c.
Proof. rewrite !event_le_spec. lia. Qed.

Lemma insert_sorted_elem x y l : y ∈ insert_sorted x l ↔ y = x ∨ y ∈ l.
Proof. by rewrite insert_sorted_perm, elem_of_cons. Qed.

Lemma insert_sorted_sorted x l :
  StronglySorted event_order l → StronglySorted event_order (insert_sorted x l).
Proof.
  induction 1 as [|y l Hl IH Hy]; simpl; [repeat constructor|].
  destruct (event_le x y) eqn:Hxy.
  - constructor; [by constructor|].
    constructor; [done|].
    eapply Forall_impl; [exact Hy|]. intros z Hz. by eapply event_order_trans.
  - constructor; [done|].
    apply Forall_forall. intros z [->|Hz]%insert_sorted_elem.
    + apply event_order_total. unfold event_order. by rewrite Hxy.
    + by eapply Forall_forall in Hy.
Qed.

Lemma sort_values_sorted data : StronglySorted event_order (sort_values data).
Proof.
  induction data; simpl; [constructor|by apply insert_sorted_sorted].
Qed.

Lemma StronglySorted_filter {A} (R : relation A) (P : A → Prop)
    `{∀ x, Decision (P x)} (l : list A) :
  StronglySorted R l → StronglySorted R (filter P l).
Proof.
  induction 1 as [|x l Hl IH Hx]; [constructor|].
  rewrite filter_cons. case_decide; [|done].
  constructor; [done|].
  apply Forall_forall. intros y [_ Hy]%list_elem_of_filter.
  by eapply Forall_forall in Hx.
Qed.

Lemma same_person_dates_sorted (p : Z) (events : list event) :
  StronglySorted event_order events →
  Forall (λ e, person_id e = p) events →
  StronglySorted Z.le (event_date <$> events).
Proof.
  induction 1 as [|e events Hs IH He]; intros Hp; [constructor|].
  apply Forall_cons in Hp as [Hpe Hp].
  rewrite fmap_cons. constructor; [by apply IH|].
  apply Forall_fmap, Forall_forall. intros e' He'. simpl.
  eapply Forall_forall in He; [|exact He'].
  eapply Forall_forall in Hp; [|exact He'].
  apply event_le_spec in He. simpl in *. lia.
Qed.

Lemma sorted_bind_replicate (l : list Z) k :
  StronglySorted Z.le l → StronglySorted Z.le (l ≫= replicate k).
Proof.
  induction 1 as [|x l Hl IH Hx]; [constructor|].
  rewrite bind_cons. apply StronglySorted_app_2; [| |done].
  - intros a b ->%elem_of_replicate_inv (y & Hb & Hy)%list_elem_of_bind.
    apply elem_of_replicate_inv in Hb as ->.
    by eapply Forall_forall in Hx.
  - clear IH. induction k as [|k IHk]; simpl; [constructor|].
    constructor; [done|].
    apply Forall_forall. intros a ->%elem_of_replicate_inv. lia.
Qed.

(** Every group handed to the tokenizer is non-empty, with parallel code and
    date arrays, the dates ascending. *)
Lemma assembler_groups_sorted data starts mace p :
  p ∈ person_id <$> data →
  let rows := patient_rows p (joined_table data starts mace) in
  rows ≠ [] ∧
  length (row_codes rows) = length (row_dates rows) ∧
  Sorted Z.le (row_dates rows).
Proof.
  intros Hp rows.
  apply np_unique_elem, list_elem_of_lookup in Hp as [i Hi].
  destruct (assembled_row data starts mace i p Hi) as (first & Hfirst & _).
  fold rows in Hfirst.
  split; [by destruct rows|].
  split; [unfold row_codes, row_dates; by rewrite !length_fmap|].
  apply StronglySorted_Sorted.
  assert (StronglySorted Z.le (event_date <$> matches person_id (normalize data) p))
    as Hsorted.
  { apply (same_person_dates_sorted p); [|apply matches_same_key].
    apply StronglySorted_filter, sort_values_sorted. }
  subst rows. rewrite patient_rows_labels.
  destruct (matches outcome_person_id (calculate_mace_outcomes starts mace) p)
    as [|l labels].
  - unfold row_dates. by rewrite <-list_fmap_compose.
  - unfold row_dates. rewrite replicated_rows. by apply sorted_bind_replicate.
Qed.

(** ** The blocks of the days *)

Lemma np_unique_first d l :
  Forall (λ y, (d < y)%Z) l → np_unique (d :: l) = d :: np_unique l.
Proof.
  intros Hl.
  change (np_unique (d :: l)) with (insert_unique d (np_unique l)).
  destruct (np_unique l) as [|z l'] eqn:E; [done|].
  assert (d < z)%Z as Hz.
  { rewrite Forall_forall in Hl. apply Hl, np_unique_elem. rewrite E. by left. }
  simpl. destruct (Z.ltb_spec d z); [done|lia].
Qed.

Lemma bind_ext_elem {A B} (f g : A → list B) (l : list A) :
  (∀ x, x ∈ l → f x = g x) → l ≫= f = l ≫= g.
Proof.
  induction l as [|x l IH]; intros Hfg; [done|].
  rewrite !bind_cons, (Hfg x) by (by left).
  f_equal. apply IH. intros y Hy. apply Hfg. by right.
Qed.

Lemma sorted_dates_pairs (pairs : list (Z * Z)) :
  StronglySorted Z.le pairs.*1 → StronglySorted (λ x y, (x.1 ≤ y.1)%Z) pairs.
Proof.
  induction pairs as [|x pairs IH]; intros Hs; [constructor|].
  rewrite fmap_cons in Hs. apply StronglySorted_inv in Hs as [Hs Hx].
  constructor; [by apply IH|]. by apply (Forall_fmap fst (Z.le x.1)) in Hx.
Qed.

(** In a column sorted by date the rows of the earliest date come first. *)
Lemma sorted_split (pairs : list (Z * Z)) (d : Z) :
  StronglySorted (λ x y, (x.1 ≤ y.1)%Z) pairs →
  Forall (λ x, (d ≤ x.1)%Z) pairs →
  pairs = filter (λ x, x.1 = d) pairs ++ filter (λ x, x.1 ≠ d) pairs.
Proof.
  induction 1 as [|x l Hs IH Hx]; intros Hd; [done|].
  apply Forall_cons in Hd as [Hdx Hd].
  destruct (decide (x.1 = d)) as [Heq|Hne].
  - rewrite filter_cons_True by done.
    rewrite (filter_cons_False (λ x, x.1 ≠ d)) by tauto.
    simpl. f_equal. by apply IH.
  - rewrite filter_cons_False by done.
    rewrite (filter_cons_True (λ x, x.1 ≠ d)) by done.
    rewrite filter_none, filter_all; [done| |].
    + eapply Forall_impl; [exact Hx|]. intros y Hy. simpl in *. lia.
    + eapply Forall_impl; [exact Hx|]. intros y Hy. simpl in *. lia.
Qed.

Section day_blocks.
Variable df : list event.
Local Abbreviation vocab := (create_vocabulary df).
Implicit Types (pairs run rest : list (Z * Z)).

Lemma loop_ids_same_day d run rest :
  Forall (λ x, x.1 = d) run →
  token_id vocab <$> tokenize_loop (Some d) [] (run ++ rest)
  = (code_id vocab <$> run.*2)
    ++ (token_id vocab <$> tokenize_loop (Some d) [] rest).
Proof.
  induction 1 as [|[d' c] run Hd Hrun IH]; [done|].
  simpl in Hd. subst d'.
  cbn [app]. rewrite loop_ids_cons, decide_True by done.
  rewrite IH. done.
Qed.

Lemma loop_ids_next_day d rest :
  Forall (λ x, x.1 ≠ d) rest →
  (token_id vocab <$> tokenize_loop (Some d) [] rest) ++ [2]
  = 2 :: match rest with
         | [] => []
         | _ => (token_id vocab <$> tokenize_loop None [] rest) ++ [2]
         end.
Proof.
  destruct rest as [|[d' c'] rest']; [done|].
  intros [Hne _]%Forall_cons. simpl in Hne.
  rewrite !loop_ids_cons, !decide_False by congruence. done.
Qed.

(** The loop writes, for each distinct date in ascending order, the day
    boundary, the ids of the codes of that date and a separator. *)
Lemma loop_ids_blocks n pairs :
  length pairs ≤ n →
  StronglySorted (λ x y, (x.1 ≤ y.1)%Z) pairs →
  pairs ≠ [] →
  (token_id vocab <$> tokenize_loop None [] pairs) ++ [2]
  = np_unique pairs.*1
      ≫= λ d, 3 :: (code_id vocab <$> (filter (λ x, x.1 = d) pairs).*2) ++ [2].
Proof.
  revert pairs. induction n as [|n IH]; intros pairs Hn Hs Hne.
  { destruct pairs; [done|simpl in Hn; lia]. }
  destruct pairs as [|[d c] tl]; [done|]. clear Hne.
  apply StronglySorted_inv in Hs as [Hs Hx]. simpl in Hx.
  pose proof (sorted_split tl d Hs Hx) as Hsplit.
  remember (filter (λ x, x.1 = d) tl) as run eqn:Erun.
  remember (filter (λ x, x.1 ≠ d) tl) as rest eqn:Erest.
  assert (Forall (λ x, x.1 = d) run) as Hrun.
  { rewrite Erun. apply Forall_forall. by intros x [? _]%list_elem_of_filter. }
  assert (Forall (λ x, (d < x.1)%Z) rest) as Hrest.
  { rewrite Erest. apply Forall_forall. intros x [Hxd Hin]%list_elem_of_filter.
    rewrite Forall_forall in Hx. specialize (Hx x Hin). simpl in *. lia. }
  assert (Forall (λ x, x.1 ≠ d) rest) as Hrest'.
  { eapply Forall_impl; [exact Hrest|]. intros x ?. simpl in *. lia. }
  assert (length rest ≤ n) as Hlen.
  { rewrite Erest. pose proof (length_filter (λ x : Z * Z, x.1 ≠ d) tl).
    simpl in Hn. lia. }
  assert (StronglySorted (λ x y : Z * Z, (x.1 ≤ y.1)%Z) rest) as Hsrest.
  { rewrite Erest. by apply StronglySorted_filter. }
  clear Erun Erest Hs Hx Hn. subst tl.
  (* the distinct dates *)
  assert (np_unique ((d, c) :: run ++ rest).*1 = d :: np_unique rest.*1) as Hdates.
  { trans (np_unique (d :: rest.*1)).
    - apply np_unique_ext. intros x.
      rewrite fmap_cons, fmap_app, !elem_of_cons, elem_of_app. simpl.
      split; [|tauto]. intros [?|[Hin|?]]; [tauto| |tauto].
      left. apply list_elem_of_fmap in Hin as (y & -> & Hy).
      rewrite Forall_forall in Hrun. by apply Hrun.
    - apply np_unique_first, Forall_fmap. exact Hrest. }
  rewrite Hdates, bind_cons.
  (* the ids of the first day *)
  rewrite loop_ids_cons, decide_False by done.
  rewrite loop_ids_same_day by done.
  cbn [app]. rewrite <-!app_assoc, loop_ids_next_day by done.
  rewrite filter_cons_True by done.
  rewrite filter_app, (filter_all _ run Hrun), (filter_none _ rest) by done.
  rewrite app_nil_r, fmap_cons. cbn [fmap list_fmap snd app].
  do 4 f_equal.
  (* the later days *)
  trans (np_unique rest.*1
           ≫= λ d0, 3 :: (code_id vocab <$> (filter (λ x, x.1 = d0) rest).*2) ++ [2]).
  - destruct rest as [|x rest'] eqn:E; [done|].
    rewrite <-E in *. apply IH; [done..|by rewrite E].
  - apply bind_ext_elem. intros d0 Hd0.
    apply np_unique_elem, list_elem_of_fmap in Hd0 as (y & -> & Hy).
    rewrite Forall_forall in Hrest. specialize (Hrest y Hy). simpl in Hrest.
    rewrite filter_cons_False by (simpl; lia).
    rewrite filter_app, (filter_none _ run); [done|].
    eapply Forall_impl; [exact Hrun|]. intros z Hz. simpl in *. lia.
Qed.
End day_blocks.

(** C3.  For a patient with events, given as parallel code and date sequences
    sorted ascending by date, the untruncated output of the tokenizer is the
    sequence-start id followed, for each distinct date in ascending order, by
    the day-boundary id, the ids of the codes of that date in their order, and
    a separator id.  So it begins with the start id, ends with the separator
    id, holds one day-boundary id and one separator id per distinct date (one
    separator before each day boundary except the first, and the trailing
    one); the other ids are, in order, the vocabulary ids of the concept
    codes, the padding id for a code that is not in the vocabulary. *)
Theorem tokenize_structure (df : list event) (events dates : list Z) :
  length events = length dates →
  Sorted Z.le dates →
  events ≠ [] →
  let vocab := create_vocabulary df in
  ∃ ids,
    untruncated_token_ids events dates vocab = Some ids ∧
    ids = 1 :: (np_unique dates ≫= day_block vocab events dates) ∧
    head ids = Some 1 ∧
    last ids = Some 2 ∧
    count 3 ids = length (remove_dups dates) ∧
    count 2 ids = length (remove_dups dates) ∧
    filter (λ id, ¬ structural id) ids = code_id vocab <$> events ∧
    (∀ c id, vocab !! str c = Some id → code_id vocab c = id) ∧
    (∀ c, vocab !! str c = None → code_id vocab c = 0).
Proof.
  intros Hlen Hsorted Hne vocab. subst vocab.
  eexists. split; [apply untruncated_token_ids_eq|].
  assert ((zip dates events).*1 = dates) as Hfst by (apply fst_zip; lia).
  assert ((zip dates events).*2 = events) as Hsnd by (apply snd_zip; lia).
  split; [|split; [|split; [|split; [|split; [|split; [|split]]]]]].
  - f_equal.
    rewrite (loop_ids_blocks df (length (zip dates events))), Hfst; [done|lia| |].
    + apply sorted_dates_pairs. rewrite Hfst.
      by apply (Sorted_StronglySorted Z.le).
    + destruct events, dates; done.
  - done.
  - by rewrite app_comm_cons, last_snoc.
  - rewrite count_cons_ne, count_app, loop_ids_day, Hfst by lia.
    rewrite count_cons_ne, count_nil by lia.
    rewrite date_runs_sorted by done. lia.
  - rewrite count_cons_ne, count_app, loop_ids_sep_first, Hfst by lia.
    rewrite count_cons_eq, count_nil, date_runs_sorted by done.
    destruct dates as [|d rest]; [by destruct events|].
    pose proof (date_runs_sorted_cons d rest
                  (Sorted_StronglySorted Z.le _ Hsorted)). lia.
  - rewrite filter_cons_False by (unfold structural; intros []; lia).
    rewrite filter_app, loop_ids_codes, Hsnd.
    rewrite filter_cons_False by (unfold structural; intros []; lia).
    by rewrite filter_nil, app_nil_r.
  - intros c id Hc. unfold code_id. by rewrite Hc.
  - intros c Hc. unfold code_id. by rewrite Hc.
Qed.

Lemma tokenize_structure_witness :
  let events := [10; 20; 30]%Z in
  let dates := [86400; 86400; 172800]%Z in
  let df := [Event 1 10 86400; Event 1 20 86400; Event 1 30 172800] in
  untruncated_token_ids events dates (create_vocabulary df)
    = Some [1; 3; 4; 5; 2; 3; 6; 2] ∧
  count 2 [1; 3; 4; 5; 2; 3; 6; 2] = length (remove_dups dates).
Proof.
  intros events dates df.
  destruct (tokenize_structure df events dates)
    as (ids & Hids & _ & _ & _ & _ & Hsep & _).
  - reflexivity.
  - repeat constructor; lia.
  - discriminate.
  - assert (ids = [1; 3; 4; 5; 2; 3; 6; 2]) as ->.
    { assert (untruncated_token_ids events dates (create_vocabulary df)
              = Some [1; 3; 4; 5; 2; 3; 6; 2]) as E by (vm_compute; reflexivity).
      congruence. }
    split; [exact Hids|]. exact Hsep.
Defined.

(** Without events the loop writes nothing: the start id and the trailing
    separator.  The assembler never passes such arrays (its groups are not
    empty). *)
Lemma tokenize_no_events (df : list event) :
  untruncated_token_ids [] [] (create_vocabulary df) = Some [1; 2].
Proof. by rewrite untruncated_token_ids_eq. Qed.

(** * Further properties of the code *)

(** ** The tokenizer outside its usual inputs *)

Lemma loop_ids_not_cls df prev pairs :
  Forall (λ id, id ≠ 1)
    (token_id (create_vocabulary df) <$> tokenize_loop prev [] pairs).
Proof.
  revert prev. induction pairs as [|[date concept] rest IH]; intros prev.
  { constructor. }
  rewrite loop_ids_cons. apply Forall_app. split.
  - case_decide; [constructor|].
    destruct prev; repeat constructor; lia.
  - constructor; [|apply IH].
    pose proof (code_id_not_structural df concept) as Hc.
    unfold structural in Hc. lia.
Qed.

Lemma count_zero_Forall (x : nat) (l : list nat) :
  Forall (λ y, y ≠ x) l → count x l = 0.
Proof.
  induction 1 as [|y l Hy Hl IH]; [done|].
  by rewrite count_cons_ne.
Qed.

Lemma last_drop_lt {A} (l : list A) n : n < length l → last (drop n l) = last l.
Proof.
  intros Hn. rewrite !last_lookup, lookup_drop, length_drop. f_equal. lia.
Qed.

Lemma slice_last_last {A} (l : list A) n : l ≠ [] → last (slice_last n l) = last l.
Proof.
  intros Hl. destruct n as [|n]; [done|]. unfold slice_last.
  apply last_drop_lt. destruct l; [done|]. simpl. lia.
Qed.

(** X1. Under a vocabulary of [create_vocabulary] the returned sequence always
    ends with the separator id; the sequence-start id occurs once, as the
    first id, when nothing is cut, and not at all once the untruncated list
    is longer than [MAX_SEQ_LENGTH]. *)
Theorem truncation_drops_start (df : list event) (events dates : list Z) :
  ∃ full out,
    untruncated_token_ids events dates (create_vocabulary df) = Some full ∧
    tokenize_patient_data events dates (create_vocabulary df) = Some out ∧
    last out = Some 2 ∧
    count 1 full = 1 ∧
    (length full ≤ MAX_SEQ_LENGTH → head out = Some 1 ∧ count 1 out = 1) ∧
    (MAX_SEQ_LENGTH < length full → count 1 out = 0 ∧ head out ≠ Some 1).
Proof.
  set (body := token_id (create_vocabulary df)
                 <$> tokenize_loop None [] (zip dates events)).
  assert (Forall (λ id, id ≠ 1) (body ++ [2])) as Hbody.
  { apply Forall_app. split; [apply loop_ids_not_cls|]. repeat constructor. lia. }
  exists (1 :: body ++ [2]), (slice_last MAX_SEQ_LENGTH (1 :: body ++ [2])).
  split; [apply untruncated_token_ids_eq|].
  split.
  { unfold tokenize_patient_data. by rewrite untruncated_token_ids_eq. }
  split.
  { rewrite slice_last_last by done. by rewrite app_comm_cons, last_snoc. }
  split.
  { by rewrite count_cons_eq, count_zero_Forall. }
  split.
  - intros Hshort. rewrite slice_last_short by done.
    split; [done|]. by rewrite count_cons_eq, count_zero_Forall.
  - intros Hlong.
    rewrite slice_last_long by (done || apply MAX_SEQ_LENGTH_pos).
    assert (∃ n, length (1 :: body ++ [2]) - MAX_SEQ_LENGTH = S n) as [n ->].
    { exists (length (1 :: body ++ [2]) - MAX_SEQ_LENGTH - 1). lia. }
    simpl. assert (Forall (λ id, id ≠ 1) (drop n (body ++ [2]))) as Hdrop
      by (by apply Forall_drop).
    split; [by apply count_zero_Forall|].
    destruct (drop n (body ++ [2])) as [|id ids]; [done|].
    apply Forall_cons in Hdrop as [Hid _]. simpl. congruence.
Qed.

Lemma date_runs_le dates prev : date_runs prev dates ≤ length dates.
Proof.
  revert prev. induction dates as [|d rest IH]; intros prev; simpl; [lia|].
  specialize (IH (Some d)). case_decide; lia.
Qed.

(** Every distinct date starts a run, except a date equal to the one before
    the column. *)
Lemma date_runs_distinct dates prev :
  length (remove_dups dates)
  ≤ date_runs prev dates
    + (if prev is Some p then if decide (p ∈ dates) then 1 else 0 else 0).
Proof.
  revert prev. induction dates as [|d rest IH]; intros prev.
  { simpl. lia. }
  specialize (IH (Some d)). cbn [date_runs].
  change (remove_dups (d :: rest))
    with (if decide_rel (∈) d rest then remove_dups rest else d :: remove_dups rest).
  simpl in IH.
  destruct (decide_rel elem_of d rest) as [Hin|Hnin];
    destruct (decide (d ∈ rest)) as [Hin'|Hnin']; try done;
    destruct (decide (Some d = prev)) as [<-|Hne].
  - rewrite decide_True by (by left). lia.
  - destruct prev as [p|]; [case_decide|]; lia.
  - rewrite decide_True by (by left). simpl. lia.
  - destruct prev as [p|]; [case_decide|]; simpl; lia.
Qed.

Lemma length_split_structural (l : list nat) :
  length l
  = count 1 l + count 2 l + count 3 l + length (filter (λ id, ¬ structural id) l).
Proof.
  induction l as [|id l IH]; [done|].
  destruct (decide (structural id)) as [Hs|Hs].
  - rewrite filter_cons_False by tauto.
    destruct Hs as [-> | [-> | ->]];
      rewrite ?count_cons_eq, ?count_cons_ne by lia; simpl; lia.
  - rewrite filter_cons_True by done.
    unfold structural in Hs.
    rewrite !count_cons_ne by lia. simpl. lia.
Qed.

(** X2. For parallel sequences in any order the tokenizer writes one
    day-boundary id per position whose date differs from the date before it:
    at least one per distinct date and at most one per event, so a date that
    comes back after another date gets a boundary of its own.  The separators
    are one fewer plus the trailing one, and the length is the number of
    events plus the boundaries, the separators and the start id. *)
Theorem tokenize_any_order (df : list event) (events dates : list Z) :
  length events = length dates →
  ∃ ids,
    untruncated_token_ids events dates (create_vocabulary df) = Some ids ∧
    count 3 ids = date_runs None dates ∧
    count 2 ids = date_runs None dates `max` 1 ∧
    length (remove_dups dates) ≤ count 3 ids ≤ length events ∧
    length ids = 1 + length events + count 3 ids + count 2 ids.
Proof.
  intros Hlen. eexists. split; [apply untruncated_token_ids_eq|].
  assert ((zip dates events).*1 = dates) as Hfst by (apply fst_zip; lia).
  assert ((zip dates events).*2 = events) as Hsnd by (apply snd_zip; lia).
  set (body := token_id (create_vocabulary df)
                 <$> tokenize_loop None [] (zip dates events)).
  assert (count 3 (1 :: body ++ [2]) = date_runs None dates) as H3.
  { rewrite count_cons_ne, count_app by lia. unfold body.
    rewrite loop_ids_day, Hfst. rewrite count_cons_ne, count_nil by lia. lia. }
  assert (count 2 (1 :: body ++ [2]) = date_runs None dates `max` 1) as H2.
  { rewrite count_cons_ne, count_app by lia. unfold body.
    rewrite loop_ids_sep_first, Hfst. rewrite count_cons_eq, count_nil.
    destruct dates as [|d rest]; simpl; lia. }
  split; [exact H3|]. split; [exact H2|].
  split.
  { rewrite H3. split.
    - pose proof (date_runs_distinct dates None). simpl in *. lia.
    - rewrite Hlen. apply date_runs_le. }
  rewrite (length_split_structural (1 :: body ++ [2])), H3, H2.
  rewrite count_cons_eq, count_zero_Forall.
  2:{ apply Forall_app. split; [apply loop_ids_not_cls|].
      repeat constructor. lia. }
  rewrite filter_cons_False by (unfold structural; intros []; lia).
  rewrite filter_app. unfold body. rewrite loop_ids_codes, Hsnd.
  rewrite filter_cons_False by (unfold structural; intros []; lia).
  rewrite filter_nil, app_nil_r, length_fmap. lia.
Qed.

Lemma tokenize_any_order_witness :
  let events := [10; 20; 10]%Z in
  let dates := [86400; 172800; 86400]%Z in
  ∃ ids,
    untruncated_token_ids events dates (create_vocabulary [Event 1 10 0; Event 1 20 0])
      = Some ids ∧
    count 3 ids = 3 ∧ length (remove_dups dates) = 2.
Proof.
  intros events dates.
  destruct (tokenize_any_order [Event 1 10 0; Event 1 20 0] events dates)
    as (ids & Hids & H3 & _).
  - reflexivity.
  - exists ids. split; [exact Hids|]. split; [rewrite H3; reflexivity|reflexivity].
Defined.

(** X3. Code and date arrays of different lengths raise nothing: [zip] stops
    at the shorter one, and the events or dates beyond it are ignored. *)
Theorem tokenize_mismatched_lengths (events dates : list Z) (vocab : gmap string nat) :
  let n := length events `min` length dates in
  tokenize_patient_data events dates vocab
    = tokenize_patient_data (take n events) (take n dates) vocab ∧
  ∀ extra_events extra_dates,
    length events = length dates →
    tokenize_patient_data (events ++ extra_events) dates vocab
      = tokenize_patient_data events dates vocab ∧
    tokenize_patient_data events (dates ++ extra_dates) vocab
      = tokenize_patient_data events dates vocab.
Proof.
  intros n. subst n.
  assert (∀ e d e' d', zip d e = zip d' e' →
            tokenize_patient_data e d vocab = tokenize_patient_data e' d' vocab)
    as Hzip.
  { intros e d e' d' Hz.
    unfold tokenize_patient_data, untruncated_token_ids, build_tokens.
    by rewrite Hz. }
  split.
  - apply Hzip. symmetry. apply zip_with_take_both'; lia.
  - intros extra_events extra_dates Hlen. split; apply Hzip.
    + trans (zip dates (take (length dates) (events ++ extra_events)));
        [symmetry; apply zip_with_take_r|].
      by rewrite <-Hlen, take_app_length.
    + trans (zip (take (length events) (dates ++ extra_dates)) events);
        [symmetry; apply zip_with_take_l|].
      by rewrite Hlen, take_app_length.
Qed.

Lemma tokenize_mismatched_lengths_witness :
  let vocab := create_vocabulary [Event 1 10 0; Event 1 20 0] in
  tokenize_patient_data [10; 20; 20]%Z [0; 0]%Z vocab
    = tokenize_patient_data [10; 20]%Z [0; 0]%Z vocab.
Proof.
  intros vocab.
  destruct (tokenize_mismatched_lengths [10; 20]%Z [0; 0]%Z vocab) as [_ Hextra].
  destruct (Hextra [20%Z] []) as [He _]; [reflexivity|]. exact He.
Defined.

(** X4. The tokenizer raises ([KeyError]) exactly when the vocabulary has no
    ['[PAD]'] entry, whatever the events.  With that entry nothing else can be
    missing: a token without an entry, a structural one too, becomes the
    padding id, so every returned id is the padding id or an id of the
    vocabulary. *)
Theorem tokenize_missing_keys (events dates : list Z) (vocab : gmap string nat) :
  (tokenize_patient_data events dates vocab = None ↔ vocab !! "[PAD]" = None) ∧
  ∀ pad, vocab !! "[PAD]" = Some pad →
    ∃ full out,
      untruncated_token_ids events dates vocab = Some full ∧
      tokenize_patient_data events dates vocab = Some out ∧
      head full = Some (default pad (vocab !! "[CLS]")) ∧
      last full = Some (default pad (vocab !! "[SEP]")) ∧
      Forall (λ id, id = pad ∨ ∃ token, vocab !! token = Some id) out.
Proof.
  unfold tokenize_patient_data, untruncated_token_ids. split.
  - destruct (vocab !! "[PAD]"); simpl; split; congruence.
  - intros pad ->. simpl. eexists _, _. split; [done|]. split; [done|].
    rewrite build_tokens_eq. split; [done|].
    split.
    { rewrite fmap_cons, fmap_app. cbn [fmap list_fmap].
      by rewrite app_comm_cons, last_snoc. }
    destruct (slice_last_suffix MAX_SEQ_LENGTH
                ((λ token, default pad (vocab !! token))
                   <$> "[CLS]" :: tokenize_loop None [] (zip dates events) ++ ["[SEP]"]))
      as [dropped Hsuffix].
    assert (Forall (λ id, id = pad ∨ ∃ token, vocab !! token = Some id)
              ((λ token, default pad (vocab !! token))
                 <$> "[CLS]" :: tokenize_loop None [] (zip dates events) ++ ["[SEP]"]))
      as Hall.
    { apply Forall_fmap, Forall_forall. intros token _. simpl.
      destruct (vocab !! token) eqn:E; simpl; eauto. }
    rewrite Hsuffix in Hall. by apply Forall_app in Hall as [_ ?].
Qed.

(** ** The stored sequences *)

Lemma merge_left_fst {L R} (kl : L → Z) (kr : R → Z) (left : list L)
    (right : list R) x :
  x ∈ merge_left kl kr left right → x.1 ∈ left.
Proof.
  rewrite merge_left_eq. intros (l & Hx & Hl)%list_elem_of_bind.
  by rewrite (join_row_fst _ _ _ _ _ Hx).
Qed.

(** After the cast and the sort every concept id of the table has an entry
    in the vocabulary built from it. *)
Lemma normalize_codes_known data e :
  e ∈ normalize data → concept_id e ∈ unique_codes (normalize data).
Proof.
  intros He. apply np_unique_elem.
  assert (astype_int32 (concept_id e) = concept_id e) as Hcast.
  { unfold normalize in He. rewrite sort_values_perm in He.
    apply list_elem_of_fmap in He as (e0 & -> & _). simpl.
    apply astype_int32_idemp. }
  rewrite <-Hcast. apply list_elem_of_fmap_2.
  by apply list_elem_of_fmap_2.
Qed.

Lemma code_id_known df c :
  c ∈ unique_codes df →
  4 ≤ code_id (create_vocabulary df) c < 4 + length (unique_codes df).
Proof.
  intros (j & Hj)%list_elem_of_lookup. unfold code_id.
  rewrite (create_vocabulary_code df j c Hj). simpl.
  apply lookup_lt_Some in Hj. lia.
Qed.

Lemma loop_ids_known df prev pairs :
  Forall (λ c, c ∈ unique_codes df) pairs.*2 →
  Forall (λ id, 1 ≤ id < 4 + length (unique_codes df))
    (token_id (create_vocabulary df) <$> tokenize_loop prev [] pairs).
Proof.
  revert prev. induction pairs as [|[date concept] rest IH]; intros prev Hc.
  { constructor. }
  rewrite fmap_cons in Hc. apply Forall_cons in Hc as [Hc Hrest].
  rewrite loop_ids_cons. apply Forall_app. split.
  - case_decide; [constructor|].
    destruct prev; simpl;
      repeat (apply Forall_cons; split; [lia|]); apply Forall_nil_2.
  - constructor; [|by apply IH].
    pose proof (code_id_known df concept Hc). lia.
Qed.

Lemma patient_tokens_known df events dates :
  Forall (λ c, c ∈ unique_codes df) events →
  Forall (λ id, 1 ≤ id < 4 + length (unique_codes df))
    (patient_tokens (create_vocabulary df) events dates).
Proof.
  intros Hc. unfold patient_tokens.
  destruct (slice_last_suffix MAX_SEQ_LENGTH
              (token_id (create_vocabulary df) <$> build_tokens events dates))
    as [dropped Hsuffix].
  assert (Forall (λ id, 1 ≤ id < 4 + length (unique_codes df))
            (token_id (create_vocabulary df) <$> build_tokens events dates))
    as Hall.
  { rewrite build_tokens_eq, fmap_cons, fmap_app, token_id_cls.
    cbn [fmap list_fmap]. rewrite token_id_sep.
    constructor; [lia|]. apply Forall_app. split.
    - apply loop_ids_known. apply Forall_forall. intros c Hin.
      rewrite Forall_forall in Hc. apply Hc.
      apply list_elem_of_fmap in Hin as ([d c'] & -> & Hin).
      apply elem_of_zip_r in Hin. done.
    - apply Forall_cons; split; [lia|]. apply Forall_nil_2. }
  rewrite Hsuffix in Hall. by apply Forall_app in Hall as [_ ?].
Qed.

(** The tokens of a group of the assembler. *)
Lemma group_tokens_known data starts mace p :
  Forall (λ id, 1 ≤ id < 4 + length (unique_codes (normalize data)))
    (patient_tokens (create_vocabulary (normalize data))
       (row_codes (patient_rows p (joined_table data starts mace)))
       (row_dates (patient_rows p (joined_table data starts mace)))).
Proof.
  apply patient_tokens_known, Forall_fmap, Forall_forall.
  intros x [_ Hx]%list_elem_of_filter. simpl.
  apply normalize_codes_known.
  eapply merge_left_fst, Hx.
Qed.

(** X5. In the saved token matrix no concept code has fallen back to the
    padding id: every id before the valid length is between 1 and the
    vocabulary size, so an entry is 0 exactly from the valid length on, and
    the padding can be read off the zeros. *)
Theorem stored_zero_is_padding (data : list event) (starts : list index_row)
    (mace : list mace_row) :
  ∃ r, process_patient_data data starts mace = Some r ∧
  ∀ i row len,
    saved_sequences r !! i = Some row →
    saved_lengths r !! i = Some len →
    (∀ j id, j < len → row !! j = Some id → 1 ≤ id < size (saved_vocab r)) ∧
    (∀ j, j < MAX_SEQ_LENGTH → row !! j = Some 0 ↔ len ≤ j).
Proof.
  exists (assembled data starts mace).
  split; [apply process_patient_data_eq|].
  intros i row len Hrow Hlen.
  assert (∃ p, np_unique (person_id <$> data) !! i = Some p) as [p Hp].
  { apply lookup_lt_is_Some_2.
    destruct (assembled_lengths data starts mace) as (Hn & _).
    rewrite <-Hn. by eapply lookup_lt_Some. }
  destruct (assembled_row data starts mace i p Hp)
    as (first & _ & Hrow' & Hlen' & _).
  rewrite Hrow' in Hrow. rewrite Hlen' in Hlen.
  injection Hrow as <-. injection Hlen as <-.
  pose proof (group_tokens_known data starts mace p) as Hknown.
  unfold assembled in *. cbn [saved_vocab] in *.
  set (tokens := patient_tokens _ _ _) in *.
  rewrite create_vocabulary_size.
  split.
  - intros j id Hj Hid. unfold pad_row in Hid.
    rewrite lookup_app_l in Hid by done.
    eapply Forall_forall in Hknown; [exact Hknown|].
    by eapply list_elem_of_lookup_2.
  - intros j Hj. split.
    + intros Hzero. destruct (decide (length tokens ≤ j)) as [|Hlt]; [done|].
      unfold pad_row in Hzero. rewrite lookup_app_l in Hzero by lia.
      eapply Forall_forall in Hknown; [|by eapply list_elem_of_lookup_2]. lia.
    + intros Hle. by apply pad_row_lookup_tail.
Qed.

Lemma loop_ids_nonempty df pairs :
  pairs ≠ [] →
  2 ≤ length (token_id (create_vocabulary df) <$> tokenize_loop None [] pairs).
Proof.
  destruct pairs as [|[date concept] rest]; [done|]. intros _.
  rewrite loop_ids_cons, decide_False by done.
  rewrite length_app. simpl. lia.
Qed.

Lemma patient_tokens_shape df events dates :
  events ≠ [] → length events = length dates →
  let tokens := patient_tokens (create_vocabulary df) events dates in
  4 ≤ length tokens ≤ MAX_SEQ_LENGTH ∧
  last tokens = Some 2 ∧
  (length tokens < MAX_SEQ_LENGTH → head tokens = Some 1).
Proof.
  intros Hne Hlen tokens. subst tokens. unfold patient_tokens.
  rewrite build_tokens_eq, fmap_cons, fmap_app, token_id_cls.
  cbn [fmap list_fmap]. rewrite token_id_sep.
  set (body := token_id (create_vocabulary df)
                 <$> tokenize_loop None [] (zip dates events)).
  assert (2 ≤ length body) as Hbody.
  { apply loop_ids_nonempty. destruct events, dates; simplify_eq/=; done. }
  pose proof MAX_SEQ_LENGTH_pos as Hpos.
  assert (4 ≤ MAX_SEQ_LENGTH) as Hmax by (unfold MAX_SEQ_LENGTH; lia).
  assert (length (1 :: body ++ [2]) = 2 + length body) as Hfull
    by (simpl; rewrite length_app; simpl; lia).
  rewrite slice_last_length by done. rewrite Hfull.
  split; [lia|]. split.
  - rewrite slice_last_last by done. by rewrite app_comm_cons, last_snoc.
  - intros Hshort. rewrite slice_last_short by lia. done.
Qed.

(** X6. Every saved valid length lies between 4 and [MAX_SEQ_LENGTH] (a
    group has at least one event: start, day boundary, code, separator); the
    last valid position of a row always holds the separator id, and a row
    that does not fill the maximum still begins with the sequence-start id. *)
Theorem stored_row_shape (data : list event) (starts : list index_row)
    (mace : list mace_row) :
  ∃ r, process_patient_data data starts mace = Some r ∧
  ∀ i row len,
    saved_sequences r !! i = Some row →
    saved_lengths r !! i = Some len →
    4 ≤ len ≤ MAX_SEQ_LENGTH ∧
    row !! (len - 1) = Some 2 ∧
    (len < MAX_SEQ_LENGTH → row !! 0 = Some 1).
Proof.
  exists (assembled data starts mace).
  split; [apply process_patient_data_eq|].
  intros i row len Hrow Hlen.
  assert (∃ p, np_unique (person_id <$> data) !! i = Some p) as [p Hp].
  { apply lookup_lt_is_Some_2.
    destruct (assembled_lengths data starts mace) as (Hn & _).
    rewrite <-Hn. by eapply lookup_lt_Some. }
  destruct (assembled_row data starts mace i p Hp)
    as (first & Hfirst & Hrow' & Hlen' & _).
  rewrite Hrow' in Hrow. rewrite Hlen' in Hlen.
  injection Hrow as <-. injection Hlen as <-.
  unfold assembled. cbn [saved_vocab].
  set (rows := patient_rows p (joined_table data starts mace)) in *.
  destruct (patient_tokens_shape (normalize data) (row_codes rows) (row_dates rows))
    as (Hbounds & Hlast & Hhead).
  { unfold row_codes. by destruct rows. }
  { unfold row_codes, row_dates. by rewrite !length_fmap. }
  set (tokens := patient_tokens _ _ _) in *.
  split; [done|]. unfold pad_row. split.
  - rewrite lookup_app_l by lia.
    replace (length tokens - 1) with (pred (length tokens)) by lia.
    by rewrite <-last_lookup.
  - intros Hshort. rewrite lookup_app_l by lia. rewrite <-head_lookup. auto.
Qed.

(** X7. The row indices follow the person ids: of two persons of the
    mapping the one with the smaller id has the smaller index. *)
Theorem mapping_ascending (data : list event) (starts : list index_row)
    (mace : list mace_row) :
  ∃ r, process_patient_data data starts mace = Some r ∧
  ∀ p q i j,
    odict_get p (sample_id_to_index r) = Some i →
    odict_get q (sample_id_to_index r) = Some j →
    (p < q)%Z ↔ i < j.
Proof.
  exists (assembled data starts mace).
  split; [apply process_patient_data_eq|].
  intros p q i j Hp%mapping_get Hq%mapping_get.
  destruct (lt_eq_lt_dec i j) as [[Hlt| ->]|Hgt].
  - pose proof (np_unique_lookup_lt _ _ _ _ _ Hp Hq Hlt). lia.
  - simplify_eq. lia.
  - pose proof (np_unique_lookup_lt _ _ _ _ _ Hq Hp Hgt). lia.
Qed.

(** ** The label the assembler keeps *)

Lemma first_label_row starts mace p s0 rest :
  matches index_person_id starts p = s0 :: rest →
  head (matches outcome_person_id (calculate_mace_outcomes starts mace) p)
  = Some (OutcomeRow p
            (within_window
               (days_to_mace (s0, head (matches mace_person_id mace p))))).
Proof.
  intros Hstarts.
  assert (index_person_id s0 = p) as Hs0.
  { pose proof (matches_same_key index_person_id starts p) as Hall.
    rewrite Hstarts in Hall. by apply Forall_cons in Hall as [? _]. }
  unfold calculate_mace_outcomes, matches at 1.
  rewrite filter_fmap. simpl.
  rewrite (merge_left_filter index_person_id mace_person_id).
  fold (matches index_person_id starts p). rewrite Hstarts.
  rewrite merge_left_eq, bind_cons, fmap_app.
  unfold join_row at 1. rewrite Hs0.
  destruct (matches mace_person_id mace p) as [|m ms]; simpl; by rewrite Hs0.
Qed.

(** X8. The label saved for a person is the label of the person's first row
    in the index-date table and first row in the outcome table, in the order
    of the tables (not of the dates); without an outcome row it is 0. *)
Theorem stored_label_first_rows (data : list event) (starts : list index_row)
    (mace : list mace_row) (p : Z) (s0 : index_row) (rest : list index_row) :
  p ∈ person_id <$> data →
  matches index_person_id starts p = s0 :: rest →
  ∃ r i,
    process_patient_data data starts mace = Some r ∧
    odict_get p (sample_id_to_index r) = Some i ∧
    saved_mace_outcomes r !! i
      = Some (Some (within_window
                      (days_to_mace (s0, head (matches mace_person_id mace p))))) ∧
    (matches mace_person_id mace p = [] → saved_mace_outcomes r !! i = Some (Some 0%Z)).
Proof.
  intros Hdata Hstarts.
  apply np_unique_elem, list_elem_of_lookup in Hdata as [i Hi].
  pose proof (first_label_row starts mace p s0 rest Hstarts) as Hfirst.
  destruct (replicated_group data starts mace p i Hi)
    as (_ & _ & _ & _ & e & first_label & _ & Hl & _ & Hlabel).
  { destruct (matches outcome_person_id (calculate_mace_outcomes starts mace) p);
      [done|simpl; lia]. }
  rewrite Hfirst in Hl. injection Hl as <-. cbn [mace_12m] in Hlabel.
  exists (assembled data starts mace), i.
  split; [apply process_patient_data_eq|].
  split; [by apply mapping_get|]. split; [exact Hlabel|].
  intros Hnone. rewrite Hlabel, Hnone. done.
Qed.

Lemma stored_label_first_rows_witness :
  let data := [Event 1 10 0] in
  let starts := [IndexRow 1 (Some (100 * 86400)%Z); IndexRow 1 (Some 0%Z)] in
  let mace := [MaceRow 1 (Some (400 * 86400)%Z)] in
  ∃ r, process_patient_data data starts mace = Some r ∧
       saved_mace_outcomes r !! 0 = Some (Some 1%Z).
Proof.
  intros data starts mace.
  destruct (stored_label_first_rows data starts mace 1
              (IndexRow 1 (Some (100 * 86400)%Z)) [IndexRow 1 (Some 0%Z)])
    as (r & i & Hr & Hi & Hlabel & _).
  - by left.
  - reflexivity.
  - exists r. split; [exact Hr|].
    assert (i = 0) as ->.
    { assert (process_patient_data data starts mace
              = Some (assembled data starts mace)) as E
        by apply process_patient_data_eq.
      rewrite E in Hr. injection Hr as <-.
      apply mapping_get in Hi. by destruct i as [|[|?]]. }
    rewrite Hlabel. reflexivity.
Defined.

(** ** The labelers row by row *)

Lemma merge_left_ext {L R} (kl : L → Z) (kr : R → Z) (left : list L)
    (right right' : list R) :
  (∀ l, l ∈ left → matches kr right' (kl l) = matches kr right (kl l)) →
  merge_left kl kr left right' = merge_left kl kr left right.
Proof.
  intros Hext. rewrite !merge_left_eq.
  induction left as [|l left IH]; [done|].
  rewrite !bind_cons, IH by (intros; apply Hext; by right).
  f_equal. unfold join_row. rewrite Hext by (by left). done.
Qed.

Lemma matches_app {R} (kr : R → Z) (r1 r2 : list R) k :
  matches kr (r1 ++ r2) k = matches kr r1 k ++ matches kr r2 k.
Proof. unfold matches. apply filter_app. Qed.

(** X9. The labeler works row by row on the index-date table: the labels of
    a concatenated table are the labels of its parts, every person of the
    index-date table gets at least one label and no other person gets one,
    and outcome rows of persons outside the index-date table change
    nothing. *)
Theorem labeler_rowwise (starts1 starts2 : list index_row) (mace : list mace_row) :
  calculate_mace_outcomes (starts1 ++ starts2) mace
    = calculate_mace_outcomes starts1 mace ++ calculate_mace_outcomes starts2 mace ∧
  length starts1 ≤ length (calculate_mace_outcomes starts1 mace) ∧
  (∀ p, p ∈ outcome_person_id <$> calculate_mace_outcomes starts1 mace
        ↔ p ∈ index_person_id <$> starts1) ∧
  (∀ extra,
     Forall (λ m, mace_person_id m ∉ index_person_id <$> starts1) extra →
     calculate_mace_outcomes starts1 (mace ++ extra)
       = calculate_mace_outcomes starts1 mace).
Proof.
  split; [|split; [|split]].
  - unfold calculate_mace_outcomes, merge_left. by rewrite bind_app, fmap_app.
  - rewrite calculate_mace_outcomes_length.
    induction starts1 as [|s starts IH]; [done|].
    rewrite fmap_cons. cbn [sum_list_with length id] in *. lia.
  - intros p. apply calculate_mace_outcomes_keys.
  - intros extra Hextra. unfold calculate_mace_outcomes. f_equal.
    apply merge_left_ext. intros s Hs.
    rewrite matches_app. rewrite (matches_no_key _ extra), app_nil_r; [done|].
    intros (m & Hk & Hm)%list_elem_of_fmap.
    rewrite Forall_forall in Hextra. apply (Hextra m Hm).
    rewrite <-Hk. by apply list_elem_of_fmap_2.
Qed.

Lemma days_window (td : Z) :
  (7 ≤ days td ≤ 365 ↔ 7 * 86400 ≤ td < 366 * 86400)%Z.
Proof.
  unfold days.
  pose proof (Z.div_mod td 86400). pose proof (Z.mod_pos_bound td 86400). lia.
Qed.

(** X10. In seconds the two windows differ at both ends.  The MACE label of
    an index date and an outcome date is 1 exactly from 7 whole days up to,
    but not including, 366 days (the elapsed time is cut to whole days); the
    mortality label of a first-exposure date and a death date is 1 exactly
    from 0 seconds up to 365 days to the second.  An event 365 days and one
    hour after time zero is inside the first window and outside the second. *)
Theorem label_windows_in_seconds (pid start event_time : Z) :
  let elapsed := (event_time - start)%Z in
  calculate_mace_outcomes [IndexRow pid (Some start)] [MaceRow pid (Some event_time)]
    = [OutcomeRow pid
         (if decide (7 * 86400 ≤ elapsed < 366 * 86400)%Z then 1 else 0)%Z] ∧
  death_12m (DeathRow pid (Some start) (Some event_time))
    = (if decide (0 ≤ elapsed ≤ 365 * 86400)%Z then 1 else 0)%Z ∧
  calculate_mace_outcomes [IndexRow pid (Some start)] [MaceRow pid None]
    = [OutcomeRow pid 0] ∧
  calculate_mace_outcomes [IndexRow pid None] [MaceRow pid (Some event_time)]
    = [OutcomeRow pid 0] ∧
  death_12m (DeathRow pid (Some start) None) = 0%Z ∧
  death_12m (DeathRow pid None (Some event_time)) = 0%Z.
Proof.
  intros elapsed. subst elapsed.
  assert (∀ s m, calculate_mace_outcomes [IndexRow pid s] [MaceRow pid m]
                 = [OutcomeRow pid
                      (within_window (days_to_mace (IndexRow pid s, Some (MaceRow pid m))))])
    as Hone.
  { intros s m. unfold calculate_mace_outcomes, merge_left, join_row, matches. simpl.
    rewrite filter_cons_True by done. done. }
  split; [|split; [|split; [|split; [|split]]]]; rewrite ?Hone; try done.
  - do 2 f_equal. unfold days_to_mace. simpl.
    case_decide as Hw.
    + by apply within_window_spec, days_window.
    + apply within_window_outside. by rewrite days_window.
  - case_decide as Hw.
    + apply death_12m_spec. eexists. split; [done|]. by apply days_in_window.
    + destruct (death_12m_binary (DeathRow pid (Some start) (Some event_time)))
        as [?|H1]; [done|].
      apply death_12m_spec in H1 as (q & [= <-] & H0 & H365).
      destruct Hw. by apply days_in_window.
Qed.

(** X11. With any death table the entry of a person is the label of the
    person's last row in the table, and 0 for a person without a row: earlier
    rows of the person are overwritten in the dict. *)
Theorem mortality_last_row (data : list event) (starts : list index_row)
    (mace : list mace_row) (deaths : list death_row) :
  ∃ r death_outcomes,
    process_patient_data data starts mace = Some r ∧
    death_outcomes_of deaths (sample_id_to_index r) = Some death_outcomes ∧
    ∀ p i, odict_get p (sample_id_to_index r) = Some i →
      death_outcomes !! i
        = Some (match last (matches death_person_id deaths p) with
                | Some row => death_12m row
                | None => 0%Z
                end) ∧
      ∀ earlier row,
        death_person_id row = p →
        death_outcomes_of (earlier ++ [row]) (sample_id_to_index r)
          = Some death_outcomes →
        death_outcomes !! i = Some (death_12m row).
Proof.
  exists (assembled data starts mace),
         ((λ p, default 0%Z (death_dict deaths !! p))
            <$> np_unique (person_id <$> data)).
  split; [apply process_patient_data_eq|].
  rewrite assembled_mapping.
  set (ids := np_unique (person_id <$> data)).
  assert (NoDup (zip ids (seq 0 (length ids))).*1) as Hkeys.
  { rewrite fst_zip by (rewrite length_seq; lia). apply np_unique_NoDup. }
  split; [apply death_outcomes_of_eq|].
  intros p i Hp%odict_get_elem%zip_seq_elem; [|done].
  split.
  - rewrite list_lookup_fmap, Hp. simpl. rewrite death_dict_lookup.
    by destruct (last (matches death_person_id deaths p)).
  - intros earlier row Hrow Hout.
    rewrite death_outcomes_of_eq in Hout. injection Hout as Hout.
    rewrite <-Hout, list_lookup_fmap, Hp. simpl.
    rewrite death_dict_lookup, matches_app. unfold matches at 2.
    rewrite filter_cons_True by done. rewrite filter_nil, last_snoc. done.
Qed.

(** ** The aligner on a mapping of any origin *)

Lemma array_set_lt {A} (i : nat) (v : A) (arr : list A) :
  i < length arr → array_set i v arr = Some (<[i := v]> arr).
Proof. intros. unfold array_set. by rewrite decide_True. Qed.

Lemma array_set_ge {A} (i : nat) (v : A) (arr : list A) :
  length arr ≤ i → array_set i v arr = None.
Proof. intros. unfold array_set. rewrite decide_False; [done|lia]. Qed.

Lemma np_index_None n i :
  np_index n i = None ↔ (i < - Z.of_nat n ∨ Z.of_nat n ≤ i)%Z.
Proof. unfold np_index. repeat case_decide; split; try done; lia. Qed.

Lemma np_index_Some n i j :
  np_index n i = Some j ↔
  j < n ∧ (i = Z.of_nat j ∨ i = (Z.of_nat j - Z.of_nat n)%Z).
Proof.
  unfold np_index. repeat case_decide; split;
    try (intros [= <-]; lia); try done; try lia.
  - intros [? ?]. f_equal. lia.
  - intros [? ?]. f_equal. lia.
Qed.

Lemma array_set_int_of_nat {A} (i : nat) (v : A) (arr : list A) :
  array_set_int (Z.of_nat i) v arr = array_set i v arr.
Proof.
  unfold array_set_int.
  destruct (np_index (length arr) (Z.of_nat i)) as [j|] eqn:E; simpl.
  - apply np_index_Some in E as [Hj E]. by replace j with i by lia.
  - apply np_index_None in E. symmetry. apply array_set_ge. lia.
Qed.

Section for_each_set.
Context {A : Type} (f : Z → A).
Implicit Types (arr : list A) (m : list (Z * Z)).

Local Abbreviation body :=
  (λ arr (item : Z * Z), array_set_int item.2 (f item.1) arr).

Lemma for_each_set_cons arr p i m :
  for_each body arr ((p, i) :: m)
  = array_set_int i (f p) arr ≫= λ arr', for_each body arr' m.
Proof. done. Qed.

Lemma for_each_set_None arr m :
  for_each body arr m = None ↔
  Exists (λ item, np_index (length arr) item.2 = None) m.
Proof.
  revert arr. induction m as [|[p i] m IH]; intros arr.
  { split; [done|]. by intros ?%Exists_nil. }
  rewrite for_each_set_cons, Exists_cons. cbn [snd]. unfold array_set_int.
  destruct (np_index (length arr) i) as [j|] eqn:E; cbn [mbind option_bind].
  - apply np_index_Some in E as [Hj _].
    rewrite array_set_lt by done. cbn [mbind option_bind].
    rewrite IH, length_insert. split; [by right|]. by intros [?|?].
  - split; [by left|done].
Qed.

Lemma for_each_set_Some arr m out :
  for_each body arr m = Some out →
  length out = length arr ∧
  ∀ j, Forall (λ item, np_index (length arr) item.2 ≠ Some j) m →
       out !! j = arr !! j.
Proof.
  revert arr. induction m as [|[p i] m IH]; intros arr.
  { intros [= ->]. done. }
  rewrite for_each_set_cons. unfold array_set_int.
  destruct (np_index (length arr) i) as [k|] eqn:E; cbn [mbind option_bind];
    [|done].
  pose proof E as [Hk _]%np_index_Some.
  rewrite array_set_lt by done. cbn [mbind option_bind].
  intros [Hlen Hother]%IH. rewrite length_insert in Hlen, Hother.
  split; [done|]. intros j [Hj Hm]%Forall_cons. cbn [snd] in Hj.
  rewrite Hother by done. apply list_lookup_insert_ne. congruence.
Qed.
End for_each_set.

(** X12. The aligner on any mapping from person ids to integer indices, not
    only the assembler's: with [n] the number of entries of the mapping it
    raises ([IndexError]) exactly when some index lies outside [-n, n), a
    negative index counting from the end of the array; otherwise the array
    has [n] entries, and an entry that no pair names (neither by its index nor
    by its index minus [n]) keeps the initial 0.  On indices that are not
    negative it is the aligner of the mortality labels. *)
Theorem aligner_index_bounds (deaths : list death_row) (id_mapping : list (Z * Z)) :
  let n := Z.of_nat (length id_mapping) in
  (death_outcomes_at deaths id_mapping = None ↔
     Exists (λ item, (item.2 < - n ∨ n ≤ item.2)%Z) id_mapping) ∧
  (∀ death_outcomes,
     death_outcomes_at deaths id_mapping = Some death_outcomes →
     length death_outcomes = length id_mapping ∧
     ∀ i, i < length id_mapping →
          Z.of_nat i ∉ id_mapping.*2 → (Z.of_nat i - n)%Z ∉ id_mapping.*2 →
          death_outcomes !! i = Some 0%Z) ∧
  ∀ m : odict nat,
    death_outcomes_at deaths (prod_map id Z.of_nat <$> m)
      = death_outcomes_of deaths m.
Proof.
  intros n. subst n. unfold death_outcomes_at. split; [|split].
  - rewrite (for_each_set_None (λ p, default 0%Z (death_dict deaths !! p))).
    rewrite length_replicate. apply Exists_proper; [|done].
    intros item. apply np_index_None.
  - intros out Hout.
    apply (for_each_set_Some (λ p, default 0%Z (death_dict deaths !! p)))
      in Hout as [Hlen Hother].
    rewrite length_replicate in Hlen, Hother. split; [done|].
    intros i Hi Hfree Hfree'.
    rewrite Hother; [by apply lookup_replicate|].
    apply Forall_forall. intros item Hitem [_ Heq]%np_index_Some.
    assert (item.2 ∈ id_mapping.*2) as Hin by (by apply list_elem_of_fmap_2).
    destruct Heq as [Heq|Heq]; rewrite Heq in Hin; done.
  - intros m. unfold death_outcomes_of. rewrite length_fmap.
    generalize (replicate (length m) 0%Z).
    induction m as [|[p i] m IH]; intros arr; [done|].
    rewrite fmap_cons. cbn [for_each prod_map fst snd id].
    rewrite array_set_int_of_nat.
    destruct (array_set i _ arr); cbn [mbind option_bind]; [apply IH|done].
Qed.

(** ** Rows of persons without events, and the cohort cells *)

Lemma label_rows_of starts mace p :
  matches outcome_person_id (calculate_mace_outcomes starts mace) p
  = (λ row, OutcomeRow (index_person_id row.1) (within_window (days_to_mace row)))
      <$> merge_left index_person_id mace_person_id
            (matches index_person_id starts p) mace.
Proof.
  unfold calculate_mace_outcomes, matches at 1.
  rewrite filter_fmap. simpl.
  by rewrite (merge_left_filter index_person_id mace_person_id).
Qed.

(** The rows of the index-date and outcome tables count only through the
    persons of the event table. *)
Lemma assembled_local data starts mace starts' mace' :
  (∀ p, p ∈ person_id <$> data →
        matches index_person_id starts' p = matches index_person_id starts p ∧
        matches mace_person_id mace' p = matches mace_person_id mace p) →
  assembled data starts' mace' = assembled data starts mace.
Proof.
  intros Hsame.
  assert (joined_table data starts' mace' = joined_table data starts mace) as Hjoin.
  { unfold joined_table, merge_outcomes. apply merge_left_ext. intros e He.
    assert (person_id e ∈ person_id <$> data) as Hp
      by (apply normalize_person_ids; by apply list_elem_of_fmap_2).
    destruct (Hsame _ Hp) as [Hstarts Hmace].
    rewrite !label_rows_of, Hstarts. f_equal.
    apply merge_left_ext. intros s Hs.
    pose proof (matches_same_key index_person_id starts (person_id e)) as Hkey.
    rewrite Forall_forall in Hkey. by rewrite (Hkey s Hs). }
  unfold assembled. by rewrite Hjoin.
Qed.

Lemma matches_exclude {R} (key : R → Z) (df : list R) (other : list Z) k :
  k ∉ other → matches key (exclude_persons key df other) k = matches key df k.
Proof.
  intros Hk. unfold matches, exclude_persons.
  induction df as [|r df IH]; [done|].
  rewrite !filter_cons.
  destruct (decide (key r ∉ other)) as [Hr|Hr].
  - rewrite filter_cons. case_decide; by rewrite IH.
  - rewrite IH. rewrite decide_False; [done|]. intros Heq. by rewrite Heq in Hr.
Qed.

(** X13. Rows of the index-date table and of the outcome table that belong
    to persons without events have no effect: two runs whose tables agree on
    the rows of every person of the event table return the same arrays,
    vocabulary and mapping. *)
Theorem foreign_rows_ignored (data : list event) (starts starts' : list index_row)
    (mace mace' : list mace_row) :
  (∀ p, p ∈ person_id <$> data →
        matches index_person_id starts' p = matches index_person_id starts p ∧
        matches mace_person_id mace' p = matches mace_person_id mace p) →
  process_patient_data data starts' mace' = process_patient_data data starts mace.
Proof.
  intros Hsame. rewrite !process_patient_data_eq. f_equal.
  by apply assembled_local.
Qed.

Lemma foreign_rows_ignored_witness :
  let data := [Event 1 10 0] in
  let starts := [IndexRow 1 (Some 0%Z)] in
  let mace := [MaceRow 1 (Some (30 * 86400)%Z)] in
  process_patient_data data (IndexRow 2 (Some 0%Z) :: starts)
                       (mace ++ [MaceRow 3 (Some 0%Z)])
  = process_patient_data data starts mace.
Proof.
  intros data starts mace. apply foreign_rows_ignored.
  intros p [->|[]%elem_of_nil]%elem_of_cons. split; reflexivity.
Defined.

(** X14. The pre-training cells: the mapping holds exactly the persons of
    the antihypertensive event table that have no row in the doxorubicin
    event table, so the two cohorts share no person; and leaving the same
    persons out of the index-date and outcome tables changes nothing in the
    result. *)
Theorem pretraining_cohort_disjoint (data antihypertensive_data : list event)
    (antihypertensive_starts : list index_row) (mace_data : list mace_row) :
  ∃ r,
    process_pretraining data antihypertensive_data antihypertensive_starts mace_data
      = Some r ∧
    (∀ p, is_Some (odict_get p (sample_id_to_index r)) ↔
          p ∈ person_id <$> antihypertensive_data ∧ p ∉ person_id <$> data) ∧
    process_patient_data
      (exclude_persons person_id antihypertensive_data (person_id <$> data))
      antihypertensive_starts mace_data
    = Some r.
Proof.
  unfold process_pretraining.
  set (dox := person_id <$> data).
  set (kept := exclude_persons person_id antihypertensive_data dox).
  assert (∀ p, p ∈ person_id <$> kept ↔
               p ∈ person_id <$> antihypertensive_data ∧ p ∉ dox) as Hkept.
  { intros p. unfold kept, exclude_persons. rewrite !list_elem_of_fmap. split.
    - intros (e & -> & [Hout He]%list_elem_of_filter). eauto.
    - intros [(e & -> & He) Hout]. exists e. split; [done|].
      by apply list_elem_of_filter. }
  eexists. split; [apply process_patient_data_eq|]. split.
  - intros p. rewrite <-Hkept, <-np_unique_elem, list_elem_of_lookup.
    split.
    + intros [i Hi]. exists i. by apply mapping_get in Hi.
    + intros [i Hi]. exists i. by apply mapping_get.
  - rewrite process_patient_data_eq. f_equal. symmetry.
    apply assembled_local. intros p [_ Hout]%Hkept.
    split; by apply matches_exclude.
Qed.

(** ** The cells on [dox_mace] *)

Lemma dox_row_agree (r : dox_mace_row) :
  between_7_365 (dox_dt_days r) = true ↔ within_window (dox_days_to_mace r) = 1%Z.
Proof.
  rewrite within_window_spec. unfold dox_dt_days, dox_days_to_mace, between_7_365.
  destruct (dox_first_mace_date r), (dox_first_exposure_date r);
    rewrite ?andb_true_iff, ?Z.leb_le; split; (done || lia).
Qed.

Lemma dox_row_selected (r : dox_mace_row) :
  between_7_365 (dox_dt_days r) = true ↔
  ∃ m e, dox_first_mace_date r = Some m ∧ dox_first_exposure_date r = Some e ∧
         (7 ≤ days (m - e) ≤ 365)%Z.
Proof.
  unfold between_7_365, dox_dt_days.
  destruct (dox_first_mace_date r) as [m|], (dox_first_exposure_date r) as [e|].
  - rewrite andb_true_iff, !Z.leb_le. split.
    + intros [? ?]. exists m, e. done.
    + intros (m' & e' & [= <-] & [= <-] & ?). done.
  - split; [done|]. intros (m' & e' & _ & [=] & _).
  - split; [done|]. intros (m' & e' & [=] & _).
  - split; [done|]. intros (m' & e' & [=] & _).
Qed.

(** X15. The frame [samson] of lines 406 to 408 holds exactly the rows of
    [dox_mace] whose entry in the column [label] of lines 457 to 465 is 1, in
    frame order; a row is in it exactly when both dates are present and the
    whole days between them lie in [7, 365]. *)
Theorem samson_is_label_one (dox_mace : list dox_mace_row) :
  samson dox_mace
    = fst <$> filter (λ x, x.2 = 1%Z) (zip dox_mace (dox_label dox_mace)) ∧
  length (samson dox_mace) = count 1%Z (dox_label dox_mace) ∧
  ∀ r, r ∈ samson dox_mace ↔
       r ∈ dox_mace ∧
       ∃ m e, dox_first_mace_date r = Some m ∧ dox_first_exposure_date r = Some e ∧
              (7 ≤ days (m - e) ≤ 365)%Z.
Proof.
  split; [|split].
  - unfold samson, dox_label.
    induction dox_mace as [|r t IH]; [done|].
    rewrite fmap_cons. cbn [zip_with]. rewrite !filter_cons. cbn [snd].
    destruct (decide (between_7_365 (dox_dt_days r) = true)) as [Hr|Hr].
    + rewrite decide_True by (by apply dox_row_agree).
      rewrite fmap_cons. simpl. by rewrite IH.
    + rewrite decide_False by (by rewrite <-dox_row_agree). done.
  - unfold samson, dox_label, count.
    induction dox_mace as [|r t IH]; [done|].
    rewrite fmap_cons, !filter_cons.
    destruct (decide (between_7_365 (dox_dt_days r) = true)) as [Hr|Hr].
    + apply dox_row_agree in Hr. rewrite decide_True by done. simpl. by rewrite IH.
    + rewrite decide_False; [done|]. intros Heq. apply Hr, dox_row_agree. done.
  - intros r. unfold samson.
    rewrite list_elem_of_filter, dox_row_selected. tauto.
Qed.

(** X16. On a frame with one row per person the cell of lines 453 to 465
    computes what [calculate_mace_outcomes] computes for the index-date table
    of the first-exposure dates and the outcome table of the MACE dates of
    the same rows: the same persons in the same order and the same labels. *)
Theorem label_cell_matches_labeler (dox_mace : list dox_mace_row) :
  NoDup (dox_person_id <$> dox_mace) →
  let starts :=
    (λ r, IndexRow (dox_person_id r) (dox_first_exposure_date r)) <$> dox_mace in
  let mace :=
    (λ r, MaceRow (dox_person_id r) (dox_first_mace_date r)) <$> dox_mace in
  outcome_person_id <$> calculate_mace_outcomes starts mace
    = dox_person_id <$> dox_mace ∧
  mace_12m <$> calculate_mace_outcomes starts mace = dox_label dox_mace.
Proof.
  intros Hnd starts mace.
  assert (mace_person_id <$> mace = dox_person_id <$> dox_mace) as Hkeys.
  { unfold mace. rewrite <-list_fmap_compose. by apply list_fmap_ext. }
  assert (NoDup (mace_person_id <$> mace)) as Hnd' by (by rewrite Hkeys).
  rewrite calculate_mace_outcomes_unique by done.
  unfold starts, dox_label. rewrite <-!list_fmap_compose. split.
  - by apply list_fmap_ext.
  - apply list_fmap_ext. intros i r Hr. simpl.
    rewrite (matches_unique_elem mace_person_id mace (dox_person_id r)
               (MaceRow (dox_person_id r) (dox_first_mace_date r)) Hnd');
      [done| |done].
    unfold mace. apply list_elem_of_fmap. exists r. split; [done|].
    by eapply list_elem_of_lookup_2.
Qed.

Lemma label_cell_matches_labeler_witness :
  let dox_mace := [DoxMaceRow 1 (Some 0%Z) (Some (7 * 86400)%Z);
                   DoxMaceRow 2 (Some 0%Z) None;
                   DoxMaceRow 3 (Some 0%Z) (Some (366 * 86400)%Z)] in
  NoDup (dox_person_id <$> dox_mace) ∧
  mace_12m <$> calculate_mace_outcomes
                 ((λ r, IndexRow (dox_person_id r) (dox_first_exposure_date r)) <$> dox_mace)
                 ((λ r, MaceRow (dox_person_id r) (dox_first_mace_date r)) <$> dox_mace)
  = [1; 0; 0]%Z.
Proof.
  intros dox_mace.
  assert (NoDup (dox_person_id <$> dox_mace)) as Hnd
    by (apply (bool_decide_unpack _); vm_compute; exact I).
  split; [exact Hnd|].
  destruct (label_cell_matches_labeler dox_mace Hnd) as [_ Hlabels].
  rewrite Hlabels. reflexivity.
Defined.

(** ** From the raw event table to the tokens *)

Lemma merge_left_fst_elem {L R} (kl : L → Z) (kr : R → Z) (left : list L)
    (right : list R) l :
  l ∈ left → ∃ x, x ∈ merge_left kl kr left right ∧ x.1 = l.
Proof.
  intros Hl. destruct (join_row kl kr right l) as [|x xs] eqn:E.
  { by apply join_row_nonempty in E. }
  exists x. split.
  - rewrite merge_left_eq. apply list_elem_of_bind. exists l.
    split; [|done]. rewrite E. by left.
  - apply (join_row_fst kl kr right l). rewrite E. by left.
Qed.

Lemma normalize_elem data e :
  e ∈ normalize data ↔
  ∃ e0, e0 ∈ data ∧
        e = Event (person_id e0) (astype_int32 (concept_id e0)) (event_date e0).
Proof.
  unfold normalize. rewrite sort_values_perm, list_elem_of_fmap. naive_solver.
Qed.

(** The dates of the rows of a person in the joined table are the dates of
    the person's rows in the raw table. *)
Lemma patient_dates_raw data starts mace p d :
  d ∈ row_dates (patient_rows p (joined_table data starts mace)) ↔
  d ∈ event_date <$> matches person_id data p.
Proof.
  unfold row_dates, patient_rows, joined_table, merge_outcomes, matches.
  rewrite !list_elem_of_fmap. split.
  - intros (x & -> & [Hp Hx]%list_elem_of_filter).
    apply merge_left_fst, normalize_elem in Hx as (e0 & He0 & Hx).
    exists e0. simpl in Hp |- *. rewrite Hx in Hp |- *. simpl in Hp |- *.
    split; [done|]. by apply list_elem_of_filter.
  - intros (e0 & -> & [Hp He0]%list_elem_of_filter).
    destruct (merge_left_fst_elem person_id outcome_person_id (normalize data)
                (calculate_mace_outcomes starts mace)
                (Event (person_id e0) (astype_int32 (concept_id e0)) (event_date e0)))
      as (x & Hx & Hfst).
    { apply normalize_elem. eauto. }
    exists x. simpl. rewrite Hfst. simpl. split; [done|].
    apply list_elem_of_filter. by rewrite Hfst.
Qed.

Lemma remove_dups_length_ext (l1 l2 : list Z) :
  (∀ x, x ∈ l1 ↔ x ∈ l2) → length (remove_dups l1) = length (remove_dups l2).
Proof.
  intros Hext. rewrite <-!np_unique_length. by rewrite (np_unique_ext l1 l2).
Qed.

(** X17. In the assembler the untruncated token sequence of every person
    holds exactly one day-boundary id and one separator id per distinct event
    date of the person in the raw event table, whatever the order of the rows
    of that table and however often the join repeats them. *)
Theorem pipeline_day_boundaries (data : list event) (starts : list index_row)
    (mace : list mace_row) (p : Z) :
  p ∈ person_id <$> data →
  let rows := patient_rows p (joined_table data starts mace) in
  let distinct_dates :=
    length (remove_dups (event_date <$> matches person_id data p)) in
  ∃ r full,
    process_patient_data data starts mace = Some r ∧
    untruncated_token_ids (row_codes rows) (row_dates rows) (saved_vocab r)
      = Some full ∧
    1 ≤ distinct_dates ∧
    count 3 full = distinct_dates ∧
    count 2 full = distinct_dates.
Proof.
  intros Hp rows distinct_dates.
  destruct (assembler_groups_sorted data starts mace p Hp)
    as (Hne & Hlen & Hsorted). fold rows in Hne, Hlen, Hsorted.
  exists (assembled data starts mace). eexists.
  split; [apply process_patient_data_eq|].
  unfold assembled. cbn [saved_vocab].
  split; [apply untruncated_token_ids_eq|].
  assert ((zip (row_dates rows) (row_codes rows)).*1 = row_dates rows) as Hfst
    by (apply fst_zip; lia).
  assert (date_runs None (row_dates rows) = distinct_dates) as Hruns.
  { rewrite date_runs_sorted by done. apply remove_dups_length_ext.
    intros d. apply patient_dates_raw. }
  assert (1 ≤ distinct_dates) as Hpos.
  { rewrite <-Hruns. unfold row_dates. destruct rows; [done|]. simpl. lia. }
  split; [done|]. split.
  - rewrite count_cons_ne, count_app, loop_ids_day, Hfst by lia.
    rewrite count_cons_ne, count_nil by lia. lia.
  - rewrite count_cons_ne, count_app, loop_ids_sep_first, Hfst by lia.
    rewrite count_cons_eq, count_nil. lia.
Qed.

Lemma pipeline_day_boundaries_witness :
  let data := [Event 1 30 172800; Event 1 10 86400; Event 1 20 86400] in
  let starts := [IndexRow 1 (Some 0%Z); IndexRow 1 (Some 0%Z)] in
  let rows := patient_rows 1 (joined_table data starts []) in
  ∃ r full,
    process_patient_data data starts [] = Some r ∧
    untruncated_token_ids (row_codes rows) (row_dates rows) (saved_vocab r)
      = Some full ∧
    count 3 full = 2.
Proof.
  intros data starts rows.
  destruct (pipeline_day_boundaries data starts [] 1)
    as (r & full & Hr & Hfull & _ & H3 & _).
  - by left.
  - exists r, full. split; [exact Hr|]. split; [exact Hfull|].
    rewrite H3. reflexivity.
Defined.

(** ** The order of the rows of the event table *)

Lemma insert_sorted_day_rows p d x l :
  day_rows p d (insert_sorted x l) = day_rows p d (x :: l).
Proof.
  unfold day_rows. induction l as [|y l IH]; [done|].
  simpl. destruct (event_le x y) eqn:Hxy; [done|].
  rewrite filter_cons, IH, !filter_cons.
  assert (¬ event_order x y) as Hn by (unfold event_order; by rewrite Hxy).
  rewrite event_le_spec in Hn.
  repeat case_decide; try done; lia.
Qed.

(** The sort is stable. *)
Lemma sort_values_day_rows p d data :
  day_rows p d (sort_values data) = day_rows p d data.
Proof.
  induction data as [|x data IH]; [done|].
  simpl. rewrite insert_sorted_day_rows. unfold day_rows in *.
  by rewrite !filter_cons, IH.
Qed.

Lemma day_rows_elem p d e data :
  e ∈ day_rows p d data ↔ e ∈ data ∧ person_id e = p ∧ event_date e = d.
Proof. unfold day_rows. rewrite list_elem_of_filter. tauto. Qed.

Lemma sorted_day_rows_eq l1 l2 :
  StronglySorted event_order l1 → StronglySorted event_order l2 →
  (∀ p d, day_rows p d l1 = day_rows p d l2) → l1 = l2.
Proof.
  intros Hs1. revert l2.
  induction Hs1 as [|x l1 Hs1 IH Hx]; intros l2 Hs2 Heq.
  - destruct l2 as [|y l2]; [done|].
    specialize (Heq (person_id y) (event_date y)).
    unfold day_rows in Heq. by rewrite filter_cons_True in Heq.
  - destruct Hs2 as [|y l2 Hs2 Hy].
    { specialize (Heq (person_id x) (event_date x)).
      unfold day_rows in Heq. by rewrite filter_cons_True in Heq. }
    assert (x = y) as <-.
    { destruct (decide (person_id y = person_id x ∧ event_date y = event_date x))
        as [Hk|Hk].
      - specialize (Heq (person_id x) (event_date x)). unfold day_rows in Heq.
        rewrite !filter_cons_True in Heq by done. congruence.
      - exfalso.
        assert (y ∈ l1) as Hy1.
        { assert (y ∈ day_rows (person_id y) (event_date y) (x :: l1)) as Hin.
          { rewrite Heq. apply day_rows_elem. split; [by left|done]. }
          apply day_rows_elem in Hin as [[->|Hin]%elem_of_cons _]; [|done].
          by destruct Hk. }
        assert (x ∈ l2) as Hx2.
        { assert (x ∈ day_rows (person_id x) (event_date x) (y :: l2)) as Hin.
          { rewrite <-Heq. apply day_rows_elem. split; [by left|done]. }
          apply day_rows_elem in Hin as [[->|Hin]%elem_of_cons _]; [|done].
          by destruct Hk. }
        rewrite Forall_forall in Hx, Hy.
        specialize (Hx _ Hy1). specialize (Hy _ Hx2).
        rewrite event_le_spec in Hx, Hy. lia. }
    f_equal. apply IH; [done|]. intros p d. specialize (Heq p d).
    unfold day_rows in *. rewrite !filter_cons in Heq.
    case_decide; [congruence|done].
Qed.

Lemma normalize_day_rows p d data :
  day_rows p d (normalize data)
  = (λ e, Event (person_id e) (astype_int32 (concept_id e)) (event_date e))
      <$> day_rows p d data.
Proof.
  unfold normalize. rewrite sort_values_day_rows. unfold day_rows.
  by rewrite filter_fmap.
Qed.

(** X18. The result depends on the order of the rows of the event table only
    through the order of the rows of one person on one date: two event tables
    that hold, for every person and date, the same rows in the same order
    give the same saved arrays, vocabulary, mapping and summary, whatever
    else differs in the order of their rows. *)
Theorem row_order_within_day (data data' : list event) (starts : list index_row)
    (mace : list mace_row) :
  (∀ p d, day_rows p d data' = day_rows p d data) →
  process_patient_data data' starts mace = process_patient_data data starts mace.
Proof.
  intros Heq.
  assert (normalize data' = normalize data) as Hn.
  { apply sorted_day_rows_eq; try apply sort_values_sorted.
    intros p d. by rewrite !normalize_day_rows, Heq. }
  unfold process_patient_data. by rewrite Hn.
Qed.

Lemma row_order_within_day_witness :
  process_patient_data
    [Event 1 30 0; Event 2 10 0; Event 1 20 86400; Event 1 40 0]
    [IndexRow 1 (Some 0%Z)] [MaceRow 1 (Some 864000%Z)]
  = process_patient_data
      [Event 2 10 0; Event 1 20 86400; Event 1 30 0; Event 1 40 0]
      [IndexRow 1 (Some 0%Z)] [MaceRow 1 (Some 864000%Z)].
Proof.
  apply row_order_within_day. intros p d. unfold day_rows.
  rewrite !filter_cons, !filter_nil. simpl.
  repeat case_decide; first [reflexivity | exfalso; lia].
Defined.

(** ** Reading the codes back from the tokens *)

Lemma code_id_inj df c1 c2 :
  c1 ∈ unique_codes df → c2 ∈ unique_codes df →
  code_id (create_vocabulary df) c1 = code_id (create_vocabulary df) c2 → c1 = c2.
Proof.
  intros (j1 & H1)%list_elem_of_lookup (j2 & H2)%list_elem_of_lookup.
  unfold code_id.
  rewrite (create_vocabulary_code df j1 c1 H1), (create_vocabulary_code df j2 c2 H2).
  simpl. intros Hj. assert (j1 = j2) as -> by lia. congruence.
Qed.

Lemma code_ids_inj df events1 events2 :
  Forall (λ c, c ∈ unique_codes df) events1 →
  Forall (λ c, c ∈ unique_codes df) events2 →
  code_id (create_vocabulary df) <$> events1
    = code_id (create_vocabulary df) <$> events2 →
  events1 = events2.
Proof.
  intros H1. revert events2.
  induction H1 as [|c1 events1 Hc1 _ IH]; intros [|c2 events2] H2 Heq;
    try done.
  apply Forall_cons in H2 as [Hc2 H2]. rewrite !fmap_cons in Heq.
  injection Heq as Hc Heq. f_equal; [by eapply code_id_inj|by apply IH].
Qed.

(** X19. Before truncation the tokenizer loses no concept code: under a
    vocabulary of [create_vocabulary], two patients whose codes are all in
    the vocabulary and whose token sequences are equal have the same codes in
    the same order, whatever their dates, and the same number of changes of
    date. *)
Theorem tokens_determine_codes (df : list event) (events1 events2 dates1 dates2 : list Z) :
  Forall (λ c, c ∈ unique_codes df) events1 →
  Forall (λ c, c ∈ unique_codes df) events2 →
  length events1 = length dates1 →
  length events2 = length dates2 →
  untruncated_token_ids events1 dates1 (create_vocabulary df)
    = untruncated_token_ids events2 dates2 (create_vocabulary df) →
  events1 = events2 ∧ date_runs None dates1 = date_runs None dates2.
Proof.
  intros H1 H2 Hl1 Hl2. rewrite !untruncated_token_ids_eq.
  intros Heq. injection Heq as Heq. apply app_inj_tail in Heq as [Heq _].
  split.
  - apply (code_ids_inj df); [done..|].
    rewrite <-(snd_zip dates1 events1), <-(snd_zip dates2 events2) by lia.
    rewrite <-(loop_ids_codes df None (zip dates1 events1)).
    rewrite <-(loop_ids_codes df None (zip dates2 events2)).
    by rewrite Heq.
  - rewrite <-(fst_zip dates1 events1), <-(fst_zip dates2 events2) by lia.
    rewrite <-(loop_ids_day df None (zip dates1 events1)).
    rewrite <-(loop_ids_day df None (zip dates2 events2)).
    by rewrite Heq.
Qed.

Lemma tokens_determine_codes_witness :
  let df := [Event 1 10 0; Event 1 20 0] in
  [10; 20]%Z = [10; 20]%Z ∧ date_runs None [0; 0]%Z = date_runs None [5; 5]%Z.
Proof.
  intros df. apply (tokens_determine_codes df [10; 20]%Z [10; 20]%Z [0; 0]%Z [5; 5]%Z).
  - repeat (apply Forall_cons; split; [by vm_compute; set_solver|]). apply Forall_nil_2.
  - repeat (apply Forall_cons; split; [by vm_compute; set_solver|]). apply Forall_nil_2.
  - reflexivity.
  - reflexivity.
  - vm_compute. reflexivity.
Defined.
